(** * A fixed-capacity ring buffer of bytes (ring_buffer.c)

    Shallow embedding of [ring_buffer.c] / [ring_buffer.h] and the
    properties of its public operations.

    Modelling choices.
    - A value of the C type [int] is a [Z] between [- INT_MAX - 1] and
      [INT_MAX].  The sums and differences of [int]s wrap modulo [2 ^ 32]
      ([Int.add], [Int.sub]), as they do in the compiled code; the
      operator [%] is [Z.rem] (truncating remainder, as in C).  Pointer
      arithmetic ([buffer->buffer + buffer->end + 1]) is exact.  No sum
      of the code wraps when twice the capacity is a value of [int]
      ([2 * length <= INT_MAX]); the properties that need it carry this
      hypothesis, and [full_zeros] gives states where it fails.
    - The storage [char *buffer] and the caller's [char *data] are lists of
      bytes addressed by a [Z] offset.  [memcpy] and [calloc] are partial:
      a copy that reads or writes outside its block, or a negative size
      (which C converts to a huge [size_t]), is undefined behaviour and is
      the outcome [Undef].  An allocation of a non-negative size succeeds.
    - A function that mutates [*buffer] takes the record and returns the
      new record together with its C return value.
    - [RingBuffer_destroy] releases the storage and the record; it has no
      counterpart here. *)

From Stdlib Require Import ZArith List Bool Lia.
From Stdlib.Strings Require Import Byte.
Import ListNotations.
Local Open Scope Z_scope.

(** ** Outcomes of C code: a value, or undefined behaviour *)

Inductive exec (A : Type) : Type :=
| Ret (a : A)
| Undef.

Arguments Ret {A} a.
Arguments Undef {A}.

Definition bind {A B : Type} (m : exec A) (k : A -> exec B) : exec B :=
  match m with
  | Ret a => k a
  | Undef => Undef
  end.

Notation "x <- m ;; k" := (bind m (fun x => k))
  (at level 61, m at next level, right associativity).

(** ** The arithmetic of [int] *)

Definition INT_MAX : Z := 2147483647.

Definition in_int (z : Z) : Prop := - INT_MAX - 1 <= z <= INT_MAX.

Module Int.

(** The value of [int] congruent to [z] modulo [2 ^ 32]. *)
Definition wrap (z : Z) : Z :=
  (z + 2147483648) mod 4294967296 - 2147483648.

Definition add (a b : Z) : Z := wrap (a + b).

Definition sub (a b : Z) : Z := wrap (a - b).

End Int.

(** ** Blocks of memory *)

Module Mem.

Definition block := list byte.

(** Number of bytes of a block. *)
Definition size (m : block) : Z := Z.of_nat (Datatypes.length m).

(** [sub m off n]: the [n] bytes of [m] from offset [off]. *)
Definition sub (m : block) (off n : Z) : exec block :=
  if (0 <=? off) && (0 <=? n) && (off + n <=? size m)
  then Ret (firstn (Z.to_nat n) (skipn (Z.to_nat off) m))
  else Undef.

(** [blit m off bs]: [m] with the bytes [bs] stored from offset [off]. *)
Definition blit (m : block) (off : Z) (bs : block) : exec block :=
  if (0 <=? off) && (off + size bs <=? size m)
  then Ret (firstn (Z.to_nat off) m ++ bs
              ++ skipn (Z.to_nat (off + size bs)) m)
  else Undef.

(** [memcpy(dst + doff, src + soff, n)]; the result is the new [dst]. *)
Definition memcpy (dst : block) (doff : Z) (src : block) (soff : Z) (n : Z)
  : exec block :=
  bs <- sub src soff n ;;
  blit dst doff bs.

(** The byte of cell [i]. *)
Definition get (m : block) (i : Z) : byte := nth (Z.to_nat i) m x00.

(** [calloc(n, 1)]: [n] zero bytes. *)
Definition calloc (n : Z) : exec block :=
  if n <? 0 then Undef else Ret (repeat x00 (Z.to_nat n)).

End Mem.

(** ** The buffer (ring_buffer.h)

    [end] is a keyword of Rocq: the field [end] of the C struct is [end_].
    The parameter [length] of the C functions is [len], to keep it apart
    from the field [length]. *)

Record RingBuffer : Type := mkRingBuffer {
  buffer : Mem.block;
  length : Z;
  start : Z;
  end_ : Z
}.

Definition set_indices (b : RingBuffer) (s e : Z) : RingBuffer :=
  {| buffer := buffer b; length := length b; start := s; end_ := e |}.

Definition set_buffer (b : RingBuffer) (m : Mem.block) : RingBuffer :=
  {| buffer := m; length := length b; start := start b; end_ := end_ b |}.

(** ** Introspection (ring_buffer.c, lines 194-241) *)

Definition RingBuffer_used_space (b : RingBuffer) : Z :=
  if start b =? length b then 0
  else Int.add
         (Z.rem (Int.sub (Int.add (length b) (end_ b)) (start b)) (length b))
         1.

Definition RingBuffer_available_space (b : RingBuffer) : Z :=
  if start b =? length b then length b
  else Int.sub (length b)
         (Int.add
            (Z.rem (Int.sub (Int.add (length b) (end_ b)) (start b))
                   (length b))
            1).

Definition RingBuffer_dist_to_end (b : RingBuffer) : Z :=
  if start b =? length b then length b
  else if start b >? end_ b then Int.sub (Int.sub (start b) (end_ b)) 1
  else Int.sub (Int.sub (length b) (end_ b)) 1.

(** ** Lifecycle and clear (lines 11-20, 185-189) *)

Definition RingBuffer_create (len : Z) : exec RingBuffer :=
  m <- Mem.calloc len ;;
  Ret {| buffer := m; length := len; start := len; end_ := len |}.

Definition RingBuffer_clear (b : RingBuffer) : RingBuffer :=
  set_indices b (length b) (length b).

(** ** Write path (lines 44-123)

    The C functions return the number of bytes written, or [-1].  [memcpy]
    returns its destination, so the tests [result == NULL] never hold and
    are left out. *)

Definition RingBuffer_write (b : RingBuffer) (data : Mem.block) (len : Z)
  : exec (RingBuffer * Z) :=
  if length b <? len then Ret (b, -1)
  else
    let openSpace := RingBuffer_available_space b in
    if start b =? length b then
      m <- Mem.memcpy (buffer b) 0 data 0 len ;;
      Ret (set_indices (set_buffer b m) 0 (Int.sub len 1), len)
    else
      let physRemains := RingBuffer_dist_to_end b in
      if physRemains <? len then
        m1 <- Mem.memcpy (buffer b) (end_ b + 1) data 0 physRemains ;;
        m2 <- Mem.memcpy m1 0 data physRemains (Int.sub len physRemains) ;;
        let e := Z.rem (Int.add (end_ b) len) (length b) in
        let s := if len >? openSpace
                 then Z.rem (Int.add (start b) (Int.sub len openSpace))
                            (length b)
                 else start b in
        Ret (set_indices (set_buffer b m2) s e, len)
      else
        m1 <- Mem.memcpy (buffer b) (end_ b + 1) data 0 len ;;
        let e := Int.add (end_ b) len in
        let s := if len >? openSpace
                 then Z.rem (Int.add (start b) (Int.sub len openSpace))
                            (length b)
                 else start b in
        Ret (set_indices (set_buffer b m1) s e, len).

Definition RingBuffer_safe_write (b : RingBuffer) (data : Mem.block) (len : Z)
  : exec (RingBuffer * Z) :=
  if RingBuffer_available_space b <? len then Ret (b, -1)
  else RingBuffer_write b data len.

(** ** Read path (lines 133-180)

    The result is [None] for the C value [NULL] and [Some data] for the
    freshly allocated block. *)

Definition RingBuffer_pop (b : RingBuffer) (len : Z)
  : exec (RingBuffer * option Mem.block) :=
  let len := if RingBuffer_used_space b <? len
             then RingBuffer_used_space b else len in
  if start b =? length b then Ret (b, None)
  else
    data <- Mem.calloc len ;;
    let physRemains := RingBuffer_dist_to_end b in
    data' <- (if physRemains <? len then
                d1 <- Mem.memcpy data 0 (buffer b) (start b)
                                 (Int.add physRemains 1) ;;
                Mem.memcpy d1 (physRemains + 1) (buffer b) 0
                           (Int.sub (Int.sub len physRemains) 1)
              else
                Mem.memcpy data 0 (buffer b) (start b) len) ;;
    let s := Z.rem (Int.add (start b) len) (length b) in
    if negb (len =? 0) && (s =? Int.add (end_ b) 1)
    then Ret (set_indices b (length b) (length b), Some data')
    else Ret (set_indices b s (end_ b), Some data').

(** ** Invariants and reachable states *)

(** The index invariant of the data model: the empty sentinel, or both
    indices inside the storage. *)
Definition index_invariant (b : RingBuffer) : Prop :=
  (start b = length b /\ end_ b = length b) \/
  (0 <= start b < length b /\ 0 <= end_ b < length b).

(** A well-formed buffer: the capacity is a positive [int], the storage
    has [length] bytes, and the indices are as in [index_invariant],
    except that [end] may be [-1] (see [RingBuffer_write] on an empty
    buffer with [len = 0]).  The code keeps this as long as its sums do
    not wrap. *)
Definition wf (b : RingBuffer) : Prop :=
  0 < length b <= INT_MAX /\
  Mem.size (buffer b) = length b /\
  ((start b = length b /\ end_ b = length b) \/
   (0 <= start b < length b /\ -1 <= end_ b < length b)).

(** The cells that hold unread bytes: from [start] to [end] inclusive,
    going forward circularly. *)
Definition unread_cell (b : RingBuffer) (i : Z) : Prop :=
  start b <> length b /\ 0 <= i < length b /\
  (if start b <=? end_ b then start b <= i <= end_ b
   else start b <= i \/ i <= end_ b).

(** The unread bytes, oldest first: the bytes of those cells. *)
Definition unread (b : RingBuffer) : Mem.block :=
  if start b =? length b then []
  else if start b <=? end_ b
       then firstn (Z.to_nat (end_ b - start b + 1))
                   (skipn (Z.to_nat (start b)) (buffer b))
       else skipn (Z.to_nat (start b)) (buffer b)
              ++ firstn (Z.to_nat (end_ b + 1)) (buffer b).

(** States reachable from [RingBuffer_create capacity] by calls of the
    public operations with any arguments, as long as the calls have a
    defined outcome. *)
Inductive reachable (capacity : Z) : RingBuffer -> Prop :=
| reach_create b :
    0 < capacity ->
    RingBuffer_create capacity = Ret b ->
    reachable capacity b
| reach_write b data len b' r :
    reachable capacity b ->
    RingBuffer_write b data len = Ret (b', r) ->
    reachable capacity b'
| reach_safe_write b data len b' r :
    reachable capacity b ->
    RingBuffer_safe_write b data len = Ret (b', r) ->
    reachable capacity b'
| reach_pop b len b' r :
    reachable capacity b ->
    RingBuffer_pop b len = Ret (b', r) ->
    reachable capacity b'
| reach_clear b :
    reachable capacity b ->
    reachable capacity (RingBuffer_clear b).

(** The same, with every write of at least one byte. *)
Inductive reachable_nz (capacity : Z) : RingBuffer -> Prop :=
| nz_create b :
    0 < capacity ->
    RingBuffer_create capacity = Ret b ->
    reachable_nz capacity b
| nz_write b data len b' r :
    reachable_nz capacity b ->
    len <> 0 ->
    RingBuffer_write b data len = Ret (b', r) ->
    reachable_nz capacity b'
| nz_safe_write b data len b' r :
    reachable_nz capacity b ->
    len <> 0 ->
    RingBuffer_safe_write b data len = Ret (b', r) ->
    reachable_nz capacity b'
| nz_pop b len b' r :
    reachable_nz capacity b ->
    RingBuffer_pop b len = Ret (b', r) ->
    reachable_nz capacity b'
| nz_clear b :
    reachable_nz capacity b ->
    reachable_nz capacity (RingBuffer_clear b).

(** ** Concrete buffers used in the examples *)

Definition abc : Mem.block := ["a"; "b"; "c"]%byte.

(** Capacity 3, one unread byte in the last cell: reached by
    [create 3; write "ab" 2; pop 1; write "c" 1; pop 1]. *)
Definition last_cell3 : RingBuffer :=
  {| buffer := abc; length := 3; start := 2; end_ := 2 |}.

(** Capacity 5, one unread byte ["q"] in cell 1: reached by
    [create 5; write "pq" 2; pop 1]. *)
Definition one_of5 : RingBuffer :=
  {| buffer := ["p"; "q"; x00; x00; x00]%byte;
     length := 5; start := 1; end_ := 1 |}.

Definition wxyz : Mem.block := ["w"; "x"; "y"; "z"]%byte.

(** Capacity 3, all cells unread: reached by [create 3; write "abc" 3]. *)
Definition full3 : RingBuffer :=
  {| buffer := abc; length := 3; start := 0; end_ := 2 |}.

(** Capacity 5, unread bytes ["dBCD"] in cells 3, 4, 0, 1 and one free
    cell: reached by
    [create 5; write "abcd" 4; pop 3; safe_write "BCD" 3]. *)
Definition wrapped5 : RingBuffer :=
  {| buffer := ["C"; "D"; "c"; "d"; "B"]%byte;
     length := 5; start := 3; end_ := 1 |}.

(** [wrapped5] after [write "xy" 2]. *)
Definition overwritten5 : RingBuffer :=
  {| buffer := ["y"; "D"; "x"; "d"; "B"]%byte;
     length := 5; start := 4; end_ := 3 |}.

(** Capacity 5, unread bytes ["ex"] in cells 4 and 0: reached by
    [create 5; write "abcde" 5; pop 4; write "x" 1]. *)
Definition split5 : RingBuffer :=
  {| buffer := ["x"; "b"; "c"; "d"; "e"]%byte;
     length := 5; start := 4; end_ := 0 |}.

(** A fresh buffer of capacity 3. *)
Definition empty3 : RingBuffer :=
  {| buffer := [x00; x00; x00]%byte; length := 3; start := 3; end_ := 3 |}.

(** [n] zero bytes, as [calloc] returns them. *)
Definition zeros (n : Z) : Mem.block := repeat x00 (Z.to_nat n).

(** Capacity [c], all cells unread from cell 0 on: reached by
    [create c] and the write of [c] zero bytes. *)
Definition full_zeros (c : Z) : RingBuffer :=
  {| buffer := zeros c; length := c; start := 0; end_ := c - 1 |}.

(** ** Memory lemmas *)

Module MemFacts.
Import Mem.

Lemma size_nonneg (m : block) : 0 <= size m.
Proof. unfold size. lia. Qed.

Lemma size_app (m1 m2 : block) : size (m1 ++ m2) = size m1 + size m2.
Proof. unfold size. rewrite length_app. lia. Qed.

Lemma size_firstn (m : block) (n : Z) :
  0 <= n <= size m -> size (firstn (Z.to_nat n) m) = n.
Proof. unfold size. intros H. rewrite length_firstn. lia. Qed.

Lemma size_skipn (m : block) (n : Z) :
  0 <= n <= size m -> size (skipn (Z.to_nat n) m) = size m - n.
Proof. unfold size. intros H. rewrite length_skipn. lia. Qed.

Lemma sub_inv (m : block) (off n : Z) (bs : block) :
  sub m off n = Ret bs ->
  0 <= off /\ 0 <= n /\ off + n <= size m /\ size bs = n /\
  bs = firstn (Z.to_nat n) (skipn (Z.to_nat off) m).
Proof.
  unfold sub. intros H.
  destruct (0 <=? off) eqn:Eo; [|discriminate].
  destruct (0 <=? n) eqn:En; [|discriminate].
  destruct (off + n <=? size m) eqn:Es; [|discriminate].
  simpl in H. injection H as <-.
  apply Z.leb_le in Eo, En, Es.
  repeat split; try assumption.
  rewrite size_firstn; [reflexivity|].
  rewrite size_skipn; lia.
Qed.

Lemma sub_ok (m : block) (off n : Z) :
  0 <= off -> 0 <= n -> off + n <= size m ->
  sub m off n = Ret (firstn (Z.to_nat n) (skipn (Z.to_nat off) m)).
Proof.
  intros Ho Hn Hs. unfold sub.
  apply Z.leb_le in Ho, Hn, Hs. rewrite Ho, Hn, Hs. reflexivity.
Qed.

Lemma blit_inv (m : block) (off : Z) (bs m' : block) :
  blit m off bs = Ret m' ->
  0 <= off /\ off + size bs <= size m /\ size m' = size m /\
  m' = firstn (Z.to_nat off) m ++ bs ++ skipn (Z.to_nat (off + size bs)) m.
Proof.
  unfold blit. intros H.
  destruct (0 <=? off) eqn:Eo; [|discriminate].
  destruct (off + size bs <=? size m) eqn:Es; [|discriminate].
  simpl in H. injection H as <-.
  apply Z.leb_le in Eo, Es.
  pose proof (size_nonneg bs).
  repeat split; try assumption.
  rewrite !size_app, size_firstn, size_skipn; lia.
Qed.

Lemma blit_ok (m : block) (off : Z) (bs : block) :
  0 <= off -> off + size bs <= size m ->
  blit m off bs =
  Ret (firstn (Z.to_nat off) m ++ bs ++ skipn (Z.to_nat (off + size bs)) m).
Proof.
  intros Ho Hs. unfold blit.
  apply Z.leb_le in Ho, Hs. rewrite Ho, Hs. reflexivity.
Qed.

Lemma memcpy_inv (dst : block) (doff : Z) (src : block) (soff n : Z)
      (m' : block) :
  memcpy dst doff src soff n = Ret m' ->
  0 <= n /\ 0 <= doff /\ doff + n <= size dst /\
  0 <= soff /\ soff + n <= size src /\ size m' = size dst.
Proof.
  unfold memcpy. intros H.
  destruct (sub src soff n) as [bs|] eqn:Esub; [|discriminate].
  simpl in H.
  apply sub_inv in Esub. destruct Esub as (? & ? & ? & Hbs & _).
  apply blit_inv in H. destruct H as (? & ? & ? & _).
  rewrite Hbs in *. repeat split; assumption.
Qed.

Lemma memcpy_ok (dst : block) (doff : Z) (src : block) (soff n : Z) :
  0 <= n -> 0 <= doff -> doff + n <= size dst ->
  0 <= soff -> soff + n <= size src ->
  exists m', memcpy dst doff src soff n = Ret m' /\ size m' = size dst.
Proof.
  intros Hn Hd Hds Hs Hss. unfold memcpy.
  rewrite sub_ok by assumption. simpl.
  assert (Hbs : size (firstn (Z.to_nat n) (skipn (Z.to_nat soff) src)) = n).
  { rewrite size_firstn; [reflexivity|]. rewrite size_skipn; lia. }
  rewrite blit_ok by (rewrite ?Hbs; assumption).
  eexists. split; [reflexivity|].
  rewrite !size_app, Hbs, size_firstn, size_skipn; lia.
Qed.

Lemma calloc_inv (n : Z) (m : block) :
  calloc n = Ret m -> 0 <= n /\ size m = n.
Proof.
  unfold calloc. destruct (n <? 0) eqn:E; [discriminate|].
  intros H. injection H as <-. apply Z.ltb_ge in E.
  split; [assumption|]. unfold size. rewrite repeat_length. lia.
Qed.

Lemma firstn_size (m : block) : firstn (Z.to_nat (size m)) m = m.
Proof. unfold size. rewrite Nat2Z.id. apply firstn_all. Qed.

Lemma skipn_size (m : block) : skipn (Z.to_nat (size m)) m = [].
Proof. unfold size. rewrite Nat2Z.id. apply skipn_all. Qed.

(** A copy that fills the whole destination returns the bytes read. *)
Lemma blit_all (m bs : block) :
  size bs = size m -> blit m 0 bs = Ret bs.
Proof.
  intros H. pose proof (size_nonneg bs).
  rewrite blit_ok by lia. simpl.
  rewrite H, skipn_size. simpl. rewrite app_nil_r. reflexivity.
Qed.

(** A copy to the front of the destination. *)
Lemma blit_front (m bs : block) :
  size bs <= size m ->
  blit m 0 bs = Ret (bs ++ skipn (Z.to_nat (size bs)) m).
Proof. intros H. rewrite blit_ok by lia. reflexivity. Qed.

(** A copy in two parts that together fill the destination returns the
    first part followed by the second. *)
Lemma blit_two_parts (m bs1 bs2 : block) :
  size bs1 + size bs2 = size m ->
  (m1 <- blit m 0 bs1 ;; blit m1 (size bs1) bs2) = Ret (bs1 ++ bs2).
Proof.
  intros H. pose proof (size_nonneg bs1). pose proof (size_nonneg bs2).
  rewrite blit_front by lia. simpl.
  assert (Hm1 : size (bs1 ++ skipn (Z.to_nat (size bs1)) m) = size m).
  { rewrite size_app, size_skipn; lia. }
  rewrite blit_ok by lia. f_equal.
  rewrite firstn_app.
  replace (Z.to_nat (size bs1) - Datatypes.length bs1)%nat with 0%nat
    by (unfold size; lia).
  rewrite firstn_size. simpl. rewrite app_nil_r. f_equal.
  replace (size bs1 + size bs2) with
    (size (bs1 ++ skipn (Z.to_nat (size bs1)) m)) by lia.
  rewrite skipn_size, app_nil_r. reflexivity.
Qed.

Lemma firstn_prefix (m rest : block) :
  firstn (Z.to_nat (size m)) (m ++ rest) = m.
Proof.
  rewrite firstn_app, firstn_size.
  replace (Z.to_nat (size m) - Datatypes.length m)%nat with 0%nat
    by (unfold size; lia).
  simpl. apply app_nil_r.
Qed.

(** A copy leaves the cells outside its destination range as they were. *)
Lemma blit_get_outside (m : block) (off : Z) (bs m' : block) (i : Z) :
  blit m off bs = Ret m' ->
  0 <= i -> i < off \/ off + size bs <= i ->
  get m' i = get m i.
Proof.
  intros H Hi Hout. apply blit_inv in H.
  destruct H as (Hoff & Hfit & _ & ->).
  pose proof (size_nonneg bs) as Hbs. unfold get.
  destruct Hout as [Hlt|Hge].
  - rewrite app_nth1 by (rewrite length_firstn; unfold size in *; lia).
    rewrite nth_firstn.
    destruct (Nat.ltb_spec (Z.to_nat i) (Z.to_nat off)); [reflexivity|lia].
  - rewrite app_nth2 by (rewrite length_firstn; unfold size in *; lia).
    rewrite app_nth2 by (rewrite length_firstn; unfold size in *; lia).
    rewrite nth_skipn. f_equal.
    rewrite length_firstn. unfold size in *. lia.
Qed.

Lemma memcpy_get_outside (dst : block) (doff : Z) (src : block) (soff n : Z)
      (m' : block) (i : Z) :
  memcpy dst doff src soff n = Ret m' ->
  0 <= i -> i < doff \/ doff + n <= i ->
  get m' i = get dst i.
Proof.
  unfold memcpy. intros H Hi Hout.
  destruct (sub src soff n) as [bs|] eqn:E; [|discriminate].
  apply sub_inv in E. destruct E as (_ & _ & _ & Hbs & _).
  cbn [bind] in H.
  eapply blit_get_outside; [eassumption|assumption|lia].
Qed.

End MemFacts.

(** ** The remainder of C on the values the buffer computes *)

Lemma rem_below (a c : Z) : 0 <= a < c -> Z.rem a c = a.
Proof. intros H. apply Z.rem_small. exact H. Qed.

Lemma rem_wrap (a c : Z) : c <= a < 2 * c -> Z.rem a c = a - c.
Proof.
  intros H. rewrite Z.rem_mod_nonneg by lia.
  symmetry. apply (Z.mod_unique a c 1 (a - c)); lia.
Qed.

Lemma rem_mod (a c : Z) : 0 <= a -> 0 < c -> Z.rem a c = a mod c.
Proof. intros. apply Z.rem_mod_nonneg; assumption. Qed.

Lemma rem_cases (a c : Z) :
  0 <= a < 2 * c ->
  (a < c /\ Z.rem a c = a) \/ (c <= a /\ Z.rem a c = a - c).
Proof.
  intros H. destruct (Z_lt_le_dec a c).
  - left. split; [assumption|]. apply rem_below. lia.
  - right. split; [assumption|]. apply rem_wrap. lia.
Qed.

(** ** Sums and differences that do not wrap *)

Lemma wrap_small (z : Z) : in_int z -> Int.wrap z = z.
Proof.
  unfold in_int, INT_MAX, Int.wrap. intros H.
  rewrite Z.mod_small by lia. lia.
Qed.

Lemma add_small (a b : Z) : in_int (a + b) -> Int.add a b = a + b.
Proof. apply wrap_small. Qed.

Lemma sub_small (a b : Z) : in_int (a - b) -> Int.sub a b = a - b.
Proof. apply wrap_small. Qed.

Ltac int_range := unfold in_int, INT_MAX in *; lia.

(** Replace the sums and differences of the goal that are in the range
    of [int] by those of [Z]. *)
Ltac int_norm :=
  repeat match goal with
         | |- context [Int.add ?a ?b] =>
             rewrite (add_small a b) by int_range
         | |- context [Int.sub ?a ?b] =>
             rewrite (sub_small a b) by int_range
         end.

(** ** Index arithmetic on well-formed buffers *)

(** Split on whether [Z.rem a c] wraps, for [a] in [0 .. 2 * c). *)
Ltac rem_split a c :=
  let H := fresh "Hrange" in
  assert (H : 0 <= a < 2 * c) by lia;
  destruct (rem_cases a c H) as [[? ->]|[? ->]];
  clear H.

(** Case analysis on the comparisons and remainders of a goal, then
    linear arithmetic. *)
Ltac index_arith :=
  rewrite ?Z.gtb_ltb;
  repeat match goal with
         | |- context [?x <? ?y] => destruct (Z.ltb_spec x y)
         end;
  repeat match goal with
         | |- context [Z.rem ?a ?c] => rem_split a c
         end;
  lia.

Lemma empty_spaces (b : RingBuffer) :
  start b = length b ->
  RingBuffer_used_space b = 0 /\
  RingBuffer_available_space b = length b /\
  RingBuffer_dist_to_end b = length b.
Proof.
  intros H.
  unfold RingBuffer_used_space, RingBuffer_available_space,
    RingBuffer_dist_to_end.
  apply Z.eqb_eq in H. rewrite H. auto.
Qed.

(** [dist_to_end] on a non-empty buffer: its differences never wrap. *)
Lemma nonempty_dist (b : RingBuffer) :
  wf b -> start b <> length b ->
  (start b <= end_ b /\
   RingBuffer_dist_to_end b = length b - end_ b - 1) \/
  (end_ b < start b /\
   RingBuffer_dist_to_end b = start b - end_ b - 1).
Proof.
  intros (Hc & _ & Hi) Hne.
  destruct Hi as [[? _]|[Hs He]]; [contradiction|].
  unfold RingBuffer_dist_to_end.
  apply Z.eqb_neq in Hne. rewrite Hne. rewrite Z.gtb_ltb.
  destruct (Z.ltb_spec (end_ b) (start b)); [right|left];
    (split; [lia|]); int_norm; reflexivity.
Qed.

(** On a non-empty buffer whose capacity is at most [INT_MAX / 2] the
    three measures are linear in the indices; which formula applies
    depends on whether the data wraps. *)
Lemma nonempty_spaces (b : RingBuffer) :
  wf b -> 2 * length b <= INT_MAX -> start b <> length b ->
  (start b <= end_ b /\
   RingBuffer_used_space b = end_ b - start b + 1 /\
   RingBuffer_available_space b = length b - (end_ b - start b + 1) /\
   RingBuffer_dist_to_end b = length b - end_ b - 1) \/
  (end_ b < start b /\
   RingBuffer_used_space b = length b + end_ b - start b + 1 /\
   RingBuffer_available_space b = start b - end_ b - 1 /\
   RingBuffer_dist_to_end b = start b - end_ b - 1).
Proof.
  intros Hwf Hsmall Hne.
  destruct (nonempty_dist b Hwf Hne) as [[Hord ->]|[Hord ->]];
    destruct Hwf as (Hc & _ & Hi);
    (destruct Hi as [[? _]|[Hs He]]; [contradiction|]);
    unfold RingBuffer_used_space, RingBuffer_available_space;
    apply Z.eqb_neq in Hne; rewrite Hne;
    [left|right]; (split; [assumption|]);
    int_norm;
    rem_split (length b + end_ b - start b) (length b);
    int_norm; lia.
Qed.

(** [used + available = length] when the capacity is at most
    [INT_MAX / 2]. *)
Lemma used_plus_available (b : RingBuffer) :
  wf b -> 2 * length b <= INT_MAX ->
  RingBuffer_used_space b + RingBuffer_available_space b = length b.
Proof.
  intros Hwf Hsmall.
  destruct (Z.eq_dec (start b) (length b)) as [E|E].
  - destruct (empty_spaces b E) as (-> & -> & _). lia.
  - destruct (nonempty_spaces b Hwf Hsmall E)
      as [(_ & -> & -> & _)|(_ & -> & -> & _)]; lia.
Qed.

(** The sums and differences that the functions evaluate on a
    well-formed buffer and a request of [0 .. length] bytes are values of
    [int] when twice the capacity is. *)
Lemma index_arithmetic_in_int (b : RingBuffer) (len : Z) :
  wf b -> 2 * length b <= INT_MAX -> 0 <= len <= length b ->
  in_int (length b + end_ b) /\
  in_int (length b + end_ b - start b) /\
  in_int (RingBuffer_used_space b) /\
  in_int (RingBuffer_available_space b) /\
  in_int (RingBuffer_dist_to_end b) /\
  in_int (end_ b + 1) /\ in_int (end_ b + len) /\ in_int (len - 1) /\
  in_int (len - RingBuffer_available_space b) /\
  in_int (start b + (len - RingBuffer_available_space b)) /\
  in_int (start b + len) /\
  in_int (RingBuffer_dist_to_end b + 1) /\
  in_int (len - RingBuffer_dist_to_end b) /\
  in_int (len - RingBuffer_dist_to_end b - 1).
Proof.
  intros Hwf Hcap Hlen. pose proof Hwf as (Hc & _ & Hi).
  destruct (Z.eq_dec (start b) (length b)) as [E|E].
  - destruct (empty_spaces b E) as (-> & -> & ->).
    destruct Hi as [[_ He]|[? _]]; int_range.
  - destruct Hi as [[? _]|[Hs He]]; [contradiction|].
    destruct (nonempty_spaces b Hwf Hcap E)
      as [(? & -> & -> & ->)|(? & -> & -> & ->)]; int_range.
Qed.

(** ** The operations keep [wf] *)

(** The three measures of a well-formed buffer of capacity at most
    [INT_MAX / 2] are between 0 and the capacity. *)
Lemma spaces_range (b : RingBuffer) :
  wf b -> 2 * length b <= INT_MAX ->
  0 <= RingBuffer_used_space b <= length b /\
  0 <= RingBuffer_available_space b <= length b /\
  0 <= RingBuffer_dist_to_end b <= length b.
Proof.
  intros Hwf Hsmall. pose proof Hwf as (Hc & _ & Hi).
  destruct (Z.eq_dec (start b) (length b)) as [E|E].
  - destruct (empty_spaces b E) as (-> & -> & ->). lia.
  - destruct Hi as [[? _]|[Hs He]]; [contradiction|].
    destruct (nonempty_spaces b Hwf Hsmall E)
      as [(? & -> & -> & ->)|(? & -> & -> & ->)]; lia.
Qed.

(** The room after [end] is made of cells of the storage. *)
Lemma dist_range (b : RingBuffer) :
  wf b -> start b <> length b ->
  0 <= RingBuffer_dist_to_end b /\
  end_ b + 1 + RingBuffer_dist_to_end b <= length b.
Proof.
  intros Hwf Hne. pose proof Hwf as (Hc & _ & Hi).
  destruct Hi as [[? _]|[Hs He]]; [contradiction|].
  destruct (nonempty_dist b Hwf Hne) as [(? & ->)|(? & ->)]; lia.
Qed.

Lemma create_wf (capacity : Z) (b : RingBuffer) :
  0 < capacity <= INT_MAX -> RingBuffer_create capacity = Ret b ->
  wf b /\ length b = capacity.
Proof.
  unfold RingBuffer_create. intros Hc H.
  destruct (Mem.calloc capacity) as [m|] eqn:Em; [|discriminate].
  simpl in H. injection H as <-.
  apply MemFacts.calloc_inv in Em. destruct Em as [_ Hm].
  unfold wf. simpl. intuition lia.
Qed.

Lemma clear_wf (b : RingBuffer) :
  wf b -> wf (RingBuffer_clear b).
Proof.
  intros (Hc & Hm & _). unfold wf, RingBuffer_clear. simpl. intuition lia.
Qed.

(** What a defined call of [RingBuffer_write] returns, branch by branch,
    in the arithmetic of [int]. *)
Lemma write_inv_int (b : RingBuffer) (data : Mem.block) (len : Z)
      (b' : RingBuffer) (r : Z) :
  RingBuffer_write b data len = Ret (b', r) ->
  (length b < len /\ b' = b /\ r = -1) \/
  (len <= length b /\ r = len /\ 0 <= len /\
   length b' = length b /\ Mem.size (buffer b') = Mem.size (buffer b) /\
   ((start b = length b /\ len <= Mem.size data /\
     start b' = 0 /\ end_ b' = Int.sub len 1) \/
    (start b <> length b /\
     0 <= RingBuffer_dist_to_end b /\
     end_ b' = (if RingBuffer_dist_to_end b <? len
                then Z.rem (Int.add (end_ b) len) (length b)
                else Int.add (end_ b) len) /\
     start b' = (if len >? RingBuffer_available_space b
                 then Z.rem (Int.add (start b)
                               (Int.sub len (RingBuffer_available_space b)))
                            (length b)
                 else start b)))).
Proof.
  unfold RingBuffer_write. intros H.
  destruct (length b <? len) eqn:Ecap.
  { apply Z.ltb_lt in Ecap. injection H as <- <-. left. auto. }
  apply Z.ltb_ge in Ecap. right.
  destruct (start b =? length b) eqn:Eempty.
  - apply Z.eqb_eq in Eempty.
    destruct (Mem.memcpy (buffer b) 0 data 0 len) as [m|] eqn:Em;
      [|discriminate].
    simpl in H. injection H as <- <-.
    apply MemFacts.memcpy_inv in Em. simpl.
    intuition lia.
  - apply Z.eqb_neq in Eempty.
    destruct (RingBuffer_dist_to_end b <? len) eqn:Ewrap.
    + apply Z.ltb_lt in Ewrap.
      destruct (Mem.memcpy (buffer b) (end_ b + 1) data 0
                  (RingBuffer_dist_to_end b)) as [m1|] eqn:Em1;
        [|discriminate].
      simpl in H.
      destruct (Mem.memcpy m1 0 data (RingBuffer_dist_to_end b)
                  (Int.sub len (RingBuffer_dist_to_end b)))
        as [m2|] eqn:Em2; [|discriminate].
      simpl in H. injection H as <- <-.
      apply MemFacts.memcpy_inv in Em1, Em2. simpl.
      intuition lia.
    + apply Z.ltb_ge in Ewrap.
      destruct (Mem.memcpy (buffer b) (end_ b + 1) data 0 len)
        as [m1|] eqn:Em1; [|discriminate].
      simpl in H. injection H as <- <-.
      apply MemFacts.memcpy_inv in Em1. simpl.
      assert (0 <= RingBuffer_dist_to_end b) by lia.
      intuition lia.
Qed.

(** On a well-formed buffer a write of [0 .. length] bytes that the
    caller's block holds is defined and returns [len]. *)
Lemma write_defined (b : RingBuffer) (data : Mem.block) (len : Z) :
  wf b -> 0 <= len <= length b -> len <= Mem.size data ->
  exists b', RingBuffer_write b data len = Ret (b', len).
Proof.
  intros Hwf Hlen Hdata. pose proof Hwf as (Hc & Hm & Hi).
  unfold RingBuffer_write.
  destruct (length b <? len) eqn:Ecap; [apply Z.ltb_lt in Ecap; lia|].
  destruct (start b =? length b) eqn:Eempty.
  - destruct (MemFacts.memcpy_ok (buffer b) 0 data 0 len)
      as (m & -> & _); try lia.
    simpl. eauto.
  - apply Z.eqb_neq in Eempty.
    destruct Hi as [[? _]|[Hs He]]; [contradiction|].
    pose proof (dist_range b Hwf Eempty) as Hd.
    destruct (RingBuffer_dist_to_end b <? len) eqn:Ewrap.
    + apply Z.ltb_lt in Ewrap.
      destruct (MemFacts.memcpy_ok (buffer b) (end_ b + 1) data 0
                  (RingBuffer_dist_to_end b)) as (m1 & -> & Hm1); try lia.
      simpl.
      rewrite (sub_small len (RingBuffer_dist_to_end b)) by int_range.
      destruct (MemFacts.memcpy_ok m1 0 data (RingBuffer_dist_to_end b)
                  (len - RingBuffer_dist_to_end b)) as (m2 & -> & _);
        try lia.
      simpl. eauto.
    + apply Z.ltb_ge in Ewrap.
      destruct (MemFacts.memcpy_ok (buffer b) (end_ b + 1) data 0 len)
        as (m1 & -> & _); try lia.
      simpl. eauto.
Qed.

(** With twice the capacity in the range of [int], the sums of
    [RingBuffer_write] do not wrap. *)
Lemma write_inv (b : RingBuffer) (data : Mem.block) (len : Z)
      (b' : RingBuffer) (r : Z) :
  wf b -> 2 * length b <= INT_MAX ->
  RingBuffer_write b data len = Ret (b', r) ->
  (length b < len /\ b' = b /\ r = -1) \/
  (len <= length b /\ r = len /\ 0 <= len <= Mem.size data /\
   length b' = length b /\ Mem.size (buffer b') = Mem.size (buffer b) /\
   ((start b = length b /\ start b' = 0 /\ end_ b' = len - 1) \/
    (start b <> length b /\
     0 <= RingBuffer_dist_to_end b /\
     end_ b' = (if RingBuffer_dist_to_end b <? len
                then Z.rem (end_ b + len) (length b)
                else end_ b + len) /\
     start b' = (if len >? RingBuffer_available_space b
                 then Z.rem (start b + (len - RingBuffer_available_space b))
                            (length b)
                 else start b)))).
Proof.
  intros Hwf Hsmall H. pose proof Hwf as (Hc & Hm & Hi).
  pose proof (spaces_range b Hwf Hsmall) as (_ & Ha & _).
  assert (Hdata : length b < len \/ len <= Mem.size data).
  { unfold RingBuffer_write in H.
    destruct (Z.ltb_spec (length b) len); [auto|right].
    destruct (Z.eqb_spec (start b) (length b)) as [E|E].
    - destruct (Mem.memcpy (buffer b) 0 data 0 len) as [m|] eqn:Em;
        [|discriminate].
      apply MemFacts.memcpy_inv in Em. lia.
    - pose proof (dist_range b Hwf E) as Hd.
      destruct (Z.ltb_spec (RingBuffer_dist_to_end b) len).
      + destruct (Mem.memcpy (buffer b) (end_ b + 1) data 0
                    (RingBuffer_dist_to_end b)) as [m1|] eqn:Em1;
          [|discriminate].
        cbn [bind] in H.
        rewrite (sub_small len (RingBuffer_dist_to_end b)) in H
          by int_range.
        destruct (Mem.memcpy m1 0 data (RingBuffer_dist_to_end b)
                    (len - RingBuffer_dist_to_end b)) as [m2|] eqn:Em2;
          [|discriminate].
        apply MemFacts.memcpy_inv in Em2. lia.
      + destruct (Mem.memcpy (buffer b) (end_ b + 1) data 0 len)
          as [m1|] eqn:Em1; [|discriminate].
        apply MemFacts.memcpy_inv in Em1. lia. }
  apply write_inv_int in H.
  destruct H as [H|(Hcap & Hr & Hlen & Hl & Hsz & Hcase)]; [left; exact H|].
  right. destruct Hdata as [?|Hdata]; [lia|].
  repeat (split; [assumption || lia|]).
  destruct Hcase as [(E & _ & Hs' & He')|(E & Hd0 & He' & Hs')].
  - left. rewrite sub_small in He' by int_range. auto.
  - right. destruct Hi as [[? _]|[Hs He]]; [contradiction|].
    split; [assumption|]. split; [assumption|].
    rewrite He', Hs'. split.
    + rewrite add_small by int_range. reflexivity.
    + rewrite sub_small by int_range. rewrite add_small by int_range.
      reflexivity.
Qed.

(** The cells of the storage that a write to a non-empty buffer leaves
    as they were: all but the [dist_to_end] cells after [end] and the
    first [len - dist_to_end] cells in the wrap branch, all but the [len]
    cells after [end] otherwise. *)
Lemma write_frame (b : RingBuffer) (data : Mem.block) (len : Z)
      (b' : RingBuffer) (r : Z) (i : Z) :
  wf b ->
  RingBuffer_write b data len = Ret (b', r) ->
  start b <> length b -> 0 <= i ->
  (if RingBuffer_dist_to_end b <? len
   then (i <= end_ b \/ end_ b + 1 + RingBuffer_dist_to_end b <= i) /\
        len - RingBuffer_dist_to_end b <= i
   else i <= end_ b \/ end_ b + 1 + len <= i) ->
  Mem.get (buffer b') i = Mem.get (buffer b) i.
Proof.
  unfold RingBuffer_write. intros Hwf H Hne Hi Hout.
  pose proof Hwf as (Hc & _ & _).
  pose proof (dist_range b Hwf Hne) as Hd.
  destruct (Z.ltb_spec (length b) len).
  { injection H as <- _. reflexivity. }
  apply Z.eqb_neq in Hne. rewrite Hne in H.
  destruct (Z.ltb_spec (RingBuffer_dist_to_end b) len).
  - destruct (Mem.memcpy (buffer b) (end_ b + 1) data 0
                (RingBuffer_dist_to_end b)) as [m1|] eqn:Em1;
      [|discriminate].
    cbn [bind] in H.
    rewrite (sub_small len (RingBuffer_dist_to_end b)) in H by int_range.
    destruct (Mem.memcpy m1 0 data (RingBuffer_dist_to_end b)
                (len - RingBuffer_dist_to_end b)) as [m2|] eqn:Em2;
      [|discriminate].
    cbn [bind] in H. injection H as <- _. simpl.
    rewrite (MemFacts.memcpy_get_outside _ _ _ _ _ _ i Em2) by lia.
    apply (MemFacts.memcpy_get_outside _ _ _ _ _ _ i Em1); lia.
  - destruct (Mem.memcpy (buffer b) (end_ b + 1) data 0 len)
      as [m1|] eqn:Em1; [|discriminate].
    cbn [bind] in H. injection H as <- _. simpl.
    apply (MemFacts.memcpy_get_outside _ _ _ _ _ _ i Em1); lia.
Qed.

Lemma write_wf (b : RingBuffer) (data : Mem.block) (len : Z)
      (b' : RingBuffer) (r : Z) :
  wf b -> 2 * length b <= INT_MAX ->
  RingBuffer_write b data len = Ret (b', r) ->
  wf b' /\ length b' = length b.
Proof.
  intros Hwf Hsmall H. pose proof Hwf as (Hc & Hm & Hi).
  apply write_inv in H; [|assumption|assumption].
  destruct H as [(_ & -> & _)|(Hcap & _ & Hlen & Hl & Hsz & Hcase)];
    [auto|].
  split; [|assumption].
  unfold wf. rewrite Hl, Hsz.
  split; [assumption|]. split; [assumption|]. right.
  destruct Hcase as [(_ & -> & ->)|(Hne & Hd0 & -> & ->)]; [lia|].
  destruct Hi as [[? _]|[Hs He]]; [contradiction|].
  destruct (nonempty_spaces b Hwf Hsmall Hne)
    as [(Hord & _ & -> & ->)|(Hord & _ & -> & ->)];
    index_arith.
Qed.

Lemma safe_write_wf (b : RingBuffer) (data : Mem.block) (len : Z)
      (b' : RingBuffer) (r : Z) :
  wf b -> 2 * length b <= INT_MAX ->
  RingBuffer_safe_write b data len = Ret (b', r) ->
  wf b' /\ length b' = length b.
Proof.
  unfold RingBuffer_safe_write. intros Hwf Hsmall H.
  destruct (RingBuffer_available_space b <? len).
  - injection H as <- _. auto.
  - eapply write_wf; eassumption.
Qed.

(** What a defined call of [RingBuffer_pop] returns, in the arithmetic of
    [int]: [n] is the clamped length. *)
Lemma pop_inv_int (b : RingBuffer) (len : Z) (b' : RingBuffer)
      (r : option Mem.block) :
  RingBuffer_pop b len = Ret (b', r) ->
  let n := if RingBuffer_used_space b <? len
           then RingBuffer_used_space b else len in
  (start b = length b /\ b' = b /\ r = None) \/
  (start b <> length b /\ 0 <= n /\
   (exists data, r = Some data /\ Mem.size data = n) /\
   b' = if negb (n =? 0) &&
           (Z.rem (Int.add (start b) n) (length b) =? Int.add (end_ b) 1)
        then set_indices b (length b) (length b)
        else set_indices b (Z.rem (Int.add (start b) n) (length b))
                         (end_ b)).
Proof.
  intros H. cbv zeta. unfold RingBuffer_pop in H.
  set (n := if RingBuffer_used_space b <? len
            then RingBuffer_used_space b else len) in *.
  destruct (start b =? length b) eqn:Eempty.
  { apply Z.eqb_eq in Eempty. injection H as <- <-. left. auto. }
  apply Z.eqb_neq in Eempty. right.
  destruct (Mem.calloc n) as [d|] eqn:Ed; [|discriminate].
  simpl in H. apply MemFacts.calloc_inv in Ed. destruct Ed as [Hn Hd].
  match type of H with
  | bind ?c _ = _ => destruct c as [d'|] eqn:Ecopy; [|discriminate]
  end.
  simpl in H.
  assert (Hd' : Mem.size d' = n).
  { destruct (RingBuffer_dist_to_end b <? n).
    - destruct (Mem.memcpy d 0 (buffer b) (start b)
                  (Int.add (RingBuffer_dist_to_end b) 1)) as [d1|] eqn:E1;
        [|discriminate].
      simpl in Ecopy.
      apply MemFacts.memcpy_inv in E1, Ecopy. lia.
    - apply MemFacts.memcpy_inv in Ecopy. lia. }
  split; [assumption|]. split; [assumption|].
  destruct (negb (n =? 0) &&
            (Z.rem (Int.add (start b) n) (length b) =? Int.add (end_ b) 1));
    injection H as <- <-; eauto.
Qed.

(** With twice the capacity in the range of [int], the sums of
    [RingBuffer_pop] do not wrap. *)
Lemma pop_inv (b : RingBuffer) (len : Z) (b' : RingBuffer)
      (r : option Mem.block) :
  wf b -> 2 * length b <= INT_MAX ->
  RingBuffer_pop b len = Ret (b', r) ->
  let n := if RingBuffer_used_space b <? len
           then RingBuffer_used_space b else len in
  (start b = length b /\ b' = b /\ r = None) \/
  (start b <> length b /\ 0 <= n /\
   (exists data, r = Some data /\ Mem.size data = n) /\
   b' = if negb (n =? 0) && (Z.rem (start b + n) (length b) =? end_ b + 1)
        then set_indices b (length b) (length b)
        else set_indices b (Z.rem (start b + n) (length b)) (end_ b)).
Proof.
  intros Hwf Hsmall H. pose proof Hwf as (Hc & _ & Hi).
  pose proof (spaces_range b Hwf Hsmall) as (Hu & _ & _).
  apply pop_inv_int in H. cbv zeta in *.
  destruct H as [H|(Hne & Hn & Hdata & Hb')]; [left; exact H|right].
  destruct Hi as [[? _]|[Hs He]]; [contradiction|].
  set (n := if RingBuffer_used_space b <? len
            then RingBuffer_used_space b else len) in *.
  assert (Hle : n <= length b).
  { unfold n. destruct (Z.ltb_spec (RingBuffer_used_space b) len); lia. }
  rewrite (add_small (start b) n) in Hb' by int_range.
  rewrite (add_small (end_ b) 1) in Hb' by int_range.
  auto.
Qed.

Lemma pop_wf (b : RingBuffer) (len : Z) (b' : RingBuffer)
      (r : option Mem.block) :
  wf b -> 2 * length b <= INT_MAX ->
  RingBuffer_pop b len = Ret (b', r) ->
  wf b' /\ length b' = length b.
Proof.
  intros Hwf Hsmall H. pose proof Hwf as (Hc & Hm & Hi).
  pose proof (spaces_range b Hwf Hsmall) as (Hu0 & _ & _).
  apply pop_inv in H; [|assumption|assumption]. cbv zeta in H.
  destruct H as [(_ & -> & _)|(Hne & Hn & _ & ->)]; [auto|].
  destruct Hi as [[? _]|[Hs He]]; [contradiction|].
  assert (Hu : (if RingBuffer_used_space b <? len
                then RingBuffer_used_space b else len) <= length b).
  { destruct (Z.ltb_spec (RingBuffer_used_space b) len); lia. }
  set (n := if RingBuffer_used_space b <? len
            then RingBuffer_used_space b else len) in *.
  destruct (negb (n =? 0) && (Z.rem (start b + n) (length b) =? end_ b + 1)).
  - unfold wf. simpl. intuition lia.
  - unfold wf. simpl.
    rem_split (start b + n) (length b); intuition lia.
Qed.

Lemma reachable_wf (capacity : Z) (b : RingBuffer) :
  2 * capacity <= INT_MAX ->
  reachable capacity b -> wf b /\ length b = capacity.
Proof.
  intros Hsmall.
  induction 1 as [b Hc Hb | b data len b' r _ [IH1 IH2] Hw
                 | b data len b' r _ [IH1 IH2] Hw
                 | b len b' r _ [IH1 IH2] Hp | b _ [IH1 IH2]].
  - apply create_wf; [lia|assumption].
  - rewrite <- IH2 in Hsmall.
    destruct (write_wf _ _ _ _ _ IH1 Hsmall Hw). split; congruence.
  - rewrite <- IH2 in Hsmall.
    destruct (safe_write_wf _ _ _ _ _ IH1 Hsmall Hw). split; congruence.
  - rewrite <- IH2 in Hsmall.
    destruct (pop_wf _ _ _ _ IH1 Hsmall Hp). split; congruence.
  - split; [apply clear_wf; assumption | exact IH2].
Qed.

(** ** The index invariant under writes of at least one byte *)

Lemma reachable_nz_reachable (capacity : Z) (b : RingBuffer) :
  reachable_nz capacity b -> reachable capacity b.
Proof.
  induction 1.
  - apply reach_create; assumption.
  - eapply reach_write; eassumption.
  - eapply reach_safe_write; eassumption.
  - eapply reach_pop; eassumption.
  - apply reach_clear; assumption.
Qed.

(** [wf] with a non-negative [end] is the index invariant. *)
Lemma wf_index_invariant (b : RingBuffer) :
  wf b -> (start b <> length b -> 0 <= end_ b) -> index_invariant b.
Proof.
  intros (_ & _ & [Hi|Hi]) He; unfold index_invariant; [auto|].
  right. assert (start b <> length b) by lia. specialize (He H). lia.
Qed.

Lemma write_index_invariant (b : RingBuffer) (data : Mem.block) (len : Z)
      (b' : RingBuffer) (r : Z) :
  wf b -> 2 * length b <= INT_MAX -> index_invariant b -> len <> 0 ->
  RingBuffer_write b data len = Ret (b', r) ->
  index_invariant b'.
Proof.
  intros Hwf Hsmall Hinv Hlen H. pose proof Hwf as (Hc & _ & _).
  destruct (write_wf _ _ _ _ _ Hwf Hsmall H) as [Hwf' Hl'].
  apply write_inv in H; [|assumption|assumption].
  destruct H as [(_ & -> & _)|(Hcap & _ & Hlen' & _ & _ & Hcase)];
    [assumption|].
  apply wf_index_invariant; [assumption|]. intros _.
  destruct Hcase as [(_ & _ & ->)|(Hne & _ & -> & _)]; [lia|].
  destruct Hinv as [[? _]|[_ He]]; [contradiction|].
  destruct (RingBuffer_dist_to_end b <? len); [|lia].
  apply Z.rem_nonneg; lia.
Qed.

Lemma pop_index_invariant (b : RingBuffer) (len : Z) (b' : RingBuffer)
      (r : option Mem.block) :
  wf b -> 2 * length b <= INT_MAX -> index_invariant b ->
  RingBuffer_pop b len = Ret (b', r) ->
  index_invariant b'.
Proof.
  intros Hwf Hsmall Hinv H.
  destruct (pop_wf _ _ _ _ Hwf Hsmall H) as [Hwf' Hl'].
  apply pop_inv in H; [|assumption|assumption]. cbv zeta in H.
  destruct H as [(_ & -> & _)|(Hne & _ & _ & Hb')]; [assumption|].
  apply wf_index_invariant; [assumption|].
  destruct Hinv as [[? _]|[_ He]]; [contradiction|].
  rewrite Hb'.
  match goal with
  | |- context [if ?c then _ else _] => destruct c
  end; simpl; lia.
Qed.

(** When no write has length 0, the index invariant holds in every
    reachable state. *)
Lemma reachable_nz_index_invariant (capacity : Z) (b : RingBuffer) :
  2 * capacity <= INT_MAX ->
  reachable_nz capacity b -> index_invariant b.
Proof.
  intros Hsmall.
  induction 1 as [b Hc Hb | b data len b' r Hr IH Hlen Hw
                 | b data len b' r Hr IH Hlen Hw
                 | b len b' r Hr IH Hp | b Hr IH].
  - unfold RingBuffer_create in Hb.
    destruct (Mem.calloc capacity); [|discriminate].
    simpl in Hb. injection Hb as <-. left. simpl. auto.
  - apply reachable_nz_reachable, reachable_wf in Hr; [|assumption].
    destruct Hr as [Hwf Hl]. rewrite <- Hl in Hsmall.
    eapply write_index_invariant; eassumption.
  - apply reachable_nz_reachable, reachable_wf in Hr; [|assumption].
    destruct Hr as [Hwf Hl]. rewrite <- Hl in Hsmall.
    unfold RingBuffer_safe_write in Hw.
    destruct (RingBuffer_available_space b <? len).
    + injection Hw as <- _. assumption.
    + eapply write_index_invariant; eassumption.
  - apply reachable_nz_reachable, reachable_wf in Hr; [|assumption].
    destruct Hr as [Hwf Hl]. rewrite <- Hl in Hsmall.
    eapply pop_index_invariant; eassumption.
  - left. unfold RingBuffer_clear. simpl. auto.
Qed.

(** ** The bytes a pop returns *)

(** The two copies of [RingBuffer_pop] fill the new block, so the block
    returned is the bytes read: [dist_to_end + 1] bytes from [start]
    followed by bytes from cell 0 in the wrap branch, [n] bytes from
    [start] otherwise. *)
Lemma pop_reads (b : RingBuffer) (len : Z) :
  wf b -> 2 * length b <= INT_MAX ->
  let n := if RingBuffer_used_space b <? len
           then RingBuffer_used_space b else len in
  let d := RingBuffer_dist_to_end b in
  RingBuffer_pop b len =
  if start b =? length b then Ret (b, None)
  else
    _ <- Mem.calloc n ;;
    data <- (if d <? n then
               bs1 <- Mem.sub (buffer b) (start b) (d + 1) ;;
               bs2 <- Mem.sub (buffer b) 0 (n - d - 1) ;;
               Ret (bs1 ++ bs2)
             else Mem.sub (buffer b) (start b) n) ;;
    Ret (if negb (n =? 0) && (Z.rem (start b + n) (length b) =? end_ b + 1)
         then set_indices b (length b) (length b)
         else set_indices b (Z.rem (start b + n) (length b)) (end_ b),
         Some data).
Proof.
  intros Hwf Hsmall n d. pose proof Hwf as (Hc & _ & Hi).
  pose proof (spaces_range b Hwf Hsmall) as (Hu & _ & Hd).
  unfold RingBuffer_pop. fold n. fold d. fold d in Hd.
  destruct (Z.eqb_spec (start b) (length b)) as [E|E]; [reflexivity|].
  destruct Hi as [[? _]|[Hs He]]; [contradiction|].
  assert (Hle : n <= length b).
  { unfold n. destruct (Z.ltb_spec (RingBuffer_used_space b) len); lia. }
  destruct (Mem.calloc n) as [d0|] eqn:Ec; [|reflexivity].
  apply MemFacts.calloc_inv in Ec. destruct Ec as [Hn Hd0].
  cbn [bind].
  rewrite (add_small (start b) n), (add_small (end_ b) 1) by int_range.
  destruct (Z.ltb_spec d n).
  - rewrite (add_small d 1), (sub_small n d) by int_range.
    rewrite (sub_small (n - d) 1) by int_range.
    unfold Mem.memcpy.
    destruct (Mem.sub (buffer b) (start b) (d + 1)) as [bs1|] eqn:E1;
      [|reflexivity].
    destruct (Mem.sub (buffer b) 0 (n - d - 1)) as [bs2|] eqn:E2.
    + apply MemFacts.sub_inv in E1, E2.
      destruct E1 as (_ & _ & _ & H1 & _).
      destruct E2 as (_ & _ & _ & H2 & _).
      pose proof (MemFacts.blit_two_parts d0 bs1 bs2) as Hb.
      rewrite H1 in Hb. cbn [bind].
      destruct (Mem.blit d0 0 bs1) as [m1|]; cbn [bind] in *.
      * rewrite Hb by lia. cbn [bind].
        destruct (negb (n =? 0) &&
                  (Z.rem (start b + n) (length b) =? end_ b + 1));
          reflexivity.
      * specialize (Hb ltac:(lia)). discriminate.
    + cbn [bind]. destruct (Mem.blit d0 0 bs1); reflexivity.
  - unfold Mem.memcpy.
    destruct (Mem.sub (buffer b) (start b) n) as [bs|] eqn:E1;
      [|reflexivity].
    apply MemFacts.sub_inv in E1. destruct E1 as (_ & _ & _ & H1 & _).
    cbn [bind]. rewrite MemFacts.blit_all by lia. cbn [bind].
    destruct (negb (n =? 0) &&
              (Z.rem (start b + n) (length b) =? end_ b + 1));
      reflexivity.
Qed.

(** ** Write then pop on an empty buffer *)

Lemma write_empty (b : RingBuffer) (D : Mem.block) :
  start b = length b -> Mem.size (buffer b) = length b ->
  Mem.size D <= length b -> length b <= INT_MAX ->
  RingBuffer_write b D (Mem.size D) =
  Ret (set_indices
         (set_buffer b (D ++ skipn (Z.to_nat (Mem.size D)) (buffer b)))
         0 (Mem.size D - 1),
       Mem.size D).
Proof.
  intros He Hm Hk Hmax. unfold RingBuffer_write.
  destruct (Z.ltb_spec (length b) (Mem.size D)); [lia|].
  apply Z.eqb_eq in He. rewrite He.
  unfold Mem.memcpy. pose proof (MemFacts.size_nonneg D).
  rewrite MemFacts.sub_ok by lia. cbn [bind Z.to_nat skipn].
  rewrite MemFacts.firstn_size, MemFacts.blit_front by lia.
  rewrite sub_small by int_range.
  reflexivity.
Qed.

(** The round trip holds for blocks of up to half the capacity (rounded
    up): then the pop does not take its wrap branch, or takes it with
    nothing left for the second copy. *)
Lemma write_pop_small (b : RingBuffer) (D : Mem.block) :
  wf b -> 2 * length b <= INT_MAX -> start b = length b ->
  1 <= Mem.size D -> 2 * Mem.size D <= length b + 1 ->
  exists b1 b2,
    RingBuffer_write b D (Mem.size D) = Ret (b1, Mem.size D) /\
    RingBuffer_pop b1 (Mem.size D) = Ret (b2, Some D).
Proof.
  intros Hwf Hsmall He Hk Hhalf. pose proof Hwf as (Hc & Hm & _).
  rewrite write_empty by lia.
  set (k := Mem.size D) in *.
  set (b1 := set_indices _ 0 (k - 1)).
  assert (Hwf1 : wf b1).
  { unfold wf, b1. cbn [start length end_ buffer set_indices set_buffer].
    split; [assumption|]. split; [|lia].
    rewrite MemFacts.size_app, MemFacts.size_skipn; fold k; lia. }
  assert (Hsmall1 : 2 * length b1 <= INT_MAX) by exact Hsmall.
  assert (Hne1 : start b1 <> length b1).
  { unfold b1. cbn [start length set_indices set_buffer]. lia. }
  assert (Hu : RingBuffer_used_space b1 = k).
  { destruct (nonempty_spaces b1 Hwf1 Hsmall1 Hne1)
      as [(_ & -> & _)|(Hord & _)];
      unfold b1 in *; cbn [start length end_ set_indices set_buffer] in *;
      lia. }
  assert (Hd : RingBuffer_dist_to_end b1 = length b - k).
  { destruct (nonempty_spaces b1 Hwf1 Hsmall1 Hne1)
      as [(_ & _ & _ & ->)|(Hord & _)];
      unfold b1 in *; cbn [start length end_ set_indices set_buffer] in *;
      lia. }
  exists b1. eexists. split; [reflexivity|].
  rewrite pop_reads by assumption. cbv zeta. rewrite Hu, Hd, Z.ltb_irrefl.
  replace (start b1 =? length b1) with false
    by (symmetry; apply Z.eqb_neq; assumption).
  unfold Mem.calloc. destruct (Z.ltb_spec k 0); [lia|]. cbn [bind].
  assert (Hread : Mem.sub (buffer b1) (start b1) k = Ret D).
  { unfold b1. cbn [start buffer set_indices set_buffer].
    rewrite MemFacts.sub_ok.
    - cbn [Z.to_nat skipn]. unfold k.
      rewrite MemFacts.firstn_prefix. reflexivity.
    - lia.
    - lia.
    - rewrite MemFacts.size_app, MemFacts.size_skipn; fold k; lia. }
  destruct (Z.ltb_spec (length b - k) k).
  - replace (length b - k + 1) with k by lia.
    replace (k - (length b - k) - 1) with 0 by lia.
    rewrite Hread. cbn [bind].
    rewrite MemFacts.sub_ok; [|lia|lia|apply MemFacts.size_nonneg].
    cbn [bind Z.to_nat firstn]. rewrite app_nil_r. reflexivity.
  - rewrite Hread. cbn [bind]. reflexivity.
Qed.

(** ** A pop of everything that is left *)

(** A pop of more than the used space returns [used_space] bytes.  It
    sends the indices to the capacity unless [end] is the last index of
    the storage; then [start] becomes 0 and the buffer counts as full. *)
Lemma pop_overlong (b : RingBuffer) (len : Z) (b' : RingBuffer)
      (r : option Mem.block) :
  wf b -> 2 * length b <= INT_MAX ->
  start b <> length b -> RingBuffer_used_space b < len ->
  RingBuffer_pop b len = Ret (b', r) ->
  (exists data, r = Some data /\ Mem.size data = RingBuffer_used_space b) /\
  (end_ b <> length b - 1 ->
   start b' = length b /\ end_ b' = length b) /\
  (end_ b = length b - 1 ->
   start b' = 0 /\ end_ b' = end_ b /\
   RingBuffer_used_space b' = length b).
Proof.
  intros Hwf Hsmall Hne Hlen H. pose proof Hwf as (Hc & _ & Hi).
  destruct Hi as [[? _]|[Hs He]]; [contradiction|].
  destruct (pop_wf _ _ _ _ Hwf Hsmall H) as [Hwf' Hl'].
  assert (Hsmall' : 2 * length b' <= INT_MAX) by (rewrite Hl'; exact Hsmall).
  apply pop_inv in H; [|assumption|assumption]. cbv zeta in H.
  apply Z.ltb_lt in Hlen. rewrite Hlen in H. apply Z.ltb_lt in Hlen.
  destruct H as [(? & _)|(_ & Hn & Hdata & Hb')]; [contradiction|].
  split; [assumption|].
  assert (Hrem : Z.rem (start b + RingBuffer_used_space b) (length b)
                 = if end_ b =? length b - 1 then 0 else end_ b + 1).
  { destruct (nonempty_spaces b Hwf Hsmall Hne)
      as [(? & -> & _)|(? & -> & _)].
    - rem_split (start b + (end_ b - start b + 1)) (length b);
        destruct (Z.eqb_spec (end_ b) (length b - 1)); lia.
    - rem_split (start b + (length b + end_ b - start b + 1)) (length b);
        destruct (Z.eqb_spec (end_ b) (length b - 1)); lia. }
  assert (Hu : RingBuffer_used_space b <> 0).
  { destruct (nonempty_spaces b Hwf Hsmall Hne)
      as [(? & -> & _)|(? & -> & _)]; lia. }
  apply Z.eqb_neq in Hu. rewrite Hrem, Hu in Hb'. simpl in Hb'.
  split.
  - intros E. apply Z.eqb_neq in E. rewrite E, Z.eqb_refl in Hb'.
    rewrite Hb'. simpl. auto.
  - intros E. pose proof E as E'. apply Z.eqb_eq in E'. rewrite E' in Hb'.
    destruct (0 =? end_ b + 1) eqn:E0; [apply Z.eqb_eq in E0; lia|].
    assert (Hs' : start b' = 0) by (rewrite Hb'; reflexivity).
    assert (He' : end_ b' = end_ b) by (rewrite Hb'; reflexivity).
    split; [assumption|]. split; [assumption|].
    assert (Hne' : start b' <> length b') by lia.
    destruct (nonempty_spaces b' Hwf' Hsmall' Hne')
      as [(? & -> & _)|(? & -> & _)];
      lia.
Qed.

(** ** Reachability of the example buffers *)

Lemma reachable_empty3 : reachable 3 empty3.
Proof. apply reach_create; [lia | reflexivity]. Qed.

Lemma reachable_last_cell3 : reachable 3 last_cell3.
Proof.
  eapply (reach_pop 3 _ 1).
  - eapply (reach_write 3 _ ["c"]%byte 1).
    + eapply (reach_pop 3 _ 1).
      * eapply (reach_write 3 _ ["a"; "b"]%byte 2).
        -- exact reachable_empty3.
        -- vm_compute. reflexivity.
      * vm_compute. reflexivity.
    + vm_compute. reflexivity.
  - vm_compute. reflexivity.
Qed.

Lemma reachable_one_of5 : reachable 5 one_of5.
Proof.
  eapply (reach_pop 5 _ 1).
  - eapply (reach_write 5 _ ["p"; "q"]%byte 2).
    + apply reach_create; [lia | reflexivity].
    + vm_compute. reflexivity.
  - vm_compute. reflexivity.
Qed.

Lemma reachable_wrapped5 : reachable 5 wrapped5.
Proof.
  eapply (reach_safe_write 5 _ ["B"; "C"; "D"]%byte 3).
  - eapply (reach_pop 5 _ 3).
    + eapply (reach_write 5 _ ["a"; "b"; "c"; "d"]%byte 4).
      * apply reach_create; [lia | reflexivity].
      * vm_compute. reflexivity.
    + vm_compute. reflexivity.
  - vm_compute. reflexivity.
Qed.

Lemma reachable_split5 : reachable 5 split5.
Proof.
  eapply (reach_write 5 _ ["x"]%byte 1).
  - eapply (reach_pop 5 _ 4).
    + eapply (reach_write 5 _ ["a"; "b"; "c"; "d"; "e"]%byte 5).
      * apply reach_create; [lia | reflexivity].
      * vm_compute. reflexivity.
    + vm_compute. reflexivity.
  - vm_compute. reflexivity.
Qed.

Lemma wf_empty3 : wf empty3.
Proof. unfold wf. vm_compute. intuition congruence. Qed.

Lemma wf_full3 : wf full3.
Proof. unfold wf. vm_compute. intuition congruence. Qed.

Lemma wf_last_cell3 : wf last_cell3.
Proof. unfold wf. vm_compute. intuition congruence. Qed.

(** ** Writes within and beyond the available space *)

Lemma set_indices_same (b : RingBuffer) :
  set_indices b (start b) (end_ b) = b.
Proof. destruct b. reflexivity. Qed.

(** A write that fits the available space of a non-empty buffer leaves
    [start] in place, adds [len] to the used space and does not touch a
    cell that holds an unread byte. *)
Lemma write_within_available (b : RingBuffer) (data : Mem.block) (len : Z)
      (b' : RingBuffer) (r : Z) :
  wf b -> 2 * length b <= INT_MAX ->
  start b <> length b -> len <= RingBuffer_available_space b ->
  RingBuffer_write b data len = Ret (b', r) ->
  r = len /\ start b' = start b /\
  RingBuffer_used_space b' = RingBuffer_used_space b + len /\
  forall i, unread_cell b i ->
            Mem.get (buffer b') i = Mem.get (buffer b) i.
Proof.
  intros Hwf Hsmall Hne Hle Hw. pose proof Hwf as (Hc & Hm & Hi).
  destruct Hi as [[? _]|[Hs He]]; [contradiction|].
  destruct (write_wf _ _ _ _ _ Hwf Hsmall Hw) as [Hwf' Hl'].
  assert (Hsmall' : 2 * length b' <= INT_MAX) by (rewrite Hl'; exact Hsmall).
  pose proof Hw as Hinv. apply write_inv in Hinv; [|assumption|assumption].
  destruct (nonempty_spaces b Hwf Hsmall Hne)
    as [(Hord & Hu & Ha & Hd)|(Hord & Hu & Ha & Hd)];
    (destruct Hinv as [(? & _)|(_ & -> & Hlen & _ & _ & Hcase)]; [lia|]);
    (destruct Hcase as [(? & _)|(_ & _ & He' & Hs')]; [contradiction|]);
    rewrite Z.gtb_ltb in Hs';
    (destruct (Z.ltb_spec (RingBuffer_available_space b) len); [lia|]);
    (split; [reflexivity|]); (split; [assumption|]);
    rewrite Hd in He'.
  - split.
    + assert (Hne' : start b' <> length b') by lia.
      destruct (nonempty_spaces b' Hwf' Hsmall' Hne')
        as [(Hord' & -> & _)|(Hord' & -> & _)];
        revert Hord'; rewrite Hu, ?Hl', Hs', He'; index_arith.
    + intros i (_ & Hi & Hcell).
      apply (write_frame _ _ _ _ _ _ Hwf Hw); [assumption|lia|].
      rewrite Hd. revert Hcell.
      destruct (Z.leb_spec (start b) (end_ b)); index_arith.
  - split.
    + assert (Hne' : start b' <> length b') by lia.
      destruct (nonempty_spaces b' Hwf' Hsmall' Hne')
        as [(Hord' & -> & _)|(Hord' & -> & _)];
        revert Hord'; rewrite Hu, ?Hl', Hs', He'; index_arith.
    + intros i (_ & Hi & Hcell).
      apply (write_frame _ _ _ _ _ _ Hwf Hw); [assumption|lia|].
      rewrite Hd. revert Hcell.
      destruct (Z.leb_spec (start b) (end_ b)); index_arith.
Qed.

(** The indices after a write of more than the available space: the
    write is defined, [start] advances by [len - available] modulo the
    capacity and the buffer is full. *)
Lemma write_overwrite_indices (b : RingBuffer) (data : Mem.block) (len : Z) :
  wf b -> 2 * length b <= INT_MAX -> len <= Mem.size data ->
  len <= length b -> RingBuffer_available_space b < len ->
  exists b',
    RingBuffer_write b data len = Ret (b', len) /\
    start b' =
      (start b + (len - RingBuffer_available_space b)) mod length b /\
    RingBuffer_used_space b' =
      Z.min (RingBuffer_used_space b + len) (length b).
Proof.
  intros Hwf Hsmall Hdata Hcap Hover. pose proof Hwf as (Hc & Hm & Hi).
  assert (Hne : start b <> length b).
  { intros E. destruct (empty_spaces b E) as (_ & Ha & _). lia. }
  destruct Hi as [[? _]|[Hs He]]; [contradiction|].
  assert (Ha0 : 0 <= RingBuffer_available_space b).
  { destruct (nonempty_spaces b Hwf Hsmall Hne)
      as [(? & _ & -> & _)|(? & _ & -> & _)]; lia. }
  destruct (write_defined b data len Hwf) as [b' Hw]; [lia|assumption|].
  exists b'. split; [assumption|].
  destruct (write_wf _ _ _ _ _ Hwf Hsmall Hw) as [Hwf' Hl'].
  assert (Hsmall' : 2 * length b' <= INT_MAX) by (rewrite Hl'; exact Hsmall).
  apply write_inv in Hw; [|assumption|assumption].
  destruct Hw as [(? & _)|(_ & _ & _ & _ & _ & Hcase)]; [lia|].
  destruct Hcase as [(? & _)|(_ & _ & He' & Hs')]; [contradiction|].
  rewrite Z.gtb_ltb in Hs'.
  destruct (Z.ltb_spec (RingBuffer_available_space b) len); [|lia].
  split; [rewrite Hs'; apply rem_mod; lia|].
  assert (Hne' : start b' <> length b').
  { rewrite Hs', Hl'.
    pose proof (Z.rem_bound_pos
                  (start b + (len - RingBuffer_available_space b))
                  (length b)).
    lia. }
  destruct (nonempty_spaces b Hwf Hsmall Hne)
    as [(Hord & Hu & Ha & Hd)|(Hord & Hu & Ha & Hd)];
    rewrite Ha in *; rewrite Hd in He';
    (destruct (nonempty_spaces b' Hwf' Hsmall' Hne')
      as [(Hord' & -> & _)|(Hord' & -> & _)]);
    revert Hord'; rewrite Hu, ?Hl', Hs', He'; index_arith.
Qed.

(** When the data does not wrap ([start <= end]), the cells of the old
    bytes that are not dropped keep their bytes. *)
Lemma write_overwrite_unwrapped (b : RingBuffer) (data : Mem.block)
      (len : Z) (b' : RingBuffer) (r : Z) (i : Z) :
  wf b -> 2 * length b <= INT_MAX -> start b <= end_ b < length b ->
  RingBuffer_available_space b < len ->
  RingBuffer_write b data len = Ret (b', r) ->
  start b + (len - RingBuffer_available_space b) <= i <= end_ b ->
  Mem.get (buffer b') i = Mem.get (buffer b) i.
Proof.
  intros Hwf Hsmall Hord Hover Hw Hi. pose proof Hwf as (Hc & Hm & Hinv).
  assert (Hne : start b <> length b) by lia.
  destruct Hinv as [[? _]|[Hs He]]; [contradiction|].
  destruct (nonempty_spaces b Hwf Hsmall Hne)
    as [(_ & _ & Ha & Hd)|(? & _)]; [|lia].
  apply (write_frame _ _ _ _ _ _ Hwf Hw); [assumption|lia|].
  rewrite Hd. rewrite Ha in *. index_arith.
Qed.

(** ** A full buffer of any capacity *)

Lemma size_zeros (n : Z) : 0 <= n -> Mem.size (zeros n) = n.
Proof.
  intros Hn. unfold Mem.size, zeros. rewrite repeat_length. lia.
Qed.

Lemma create_zeros (c : Z) :
  0 <= c ->
  RingBuffer_create c
  = Ret {| buffer := zeros c; length := c; start := c; end_ := c |}.
Proof.
  intros Hc. unfold RingBuffer_create, Mem.calloc.
  destruct (Z.ltb_spec c 0); [lia|]. reflexivity.
Qed.

Lemma reachable_full_zeros (c : Z) :
  0 < c <= INT_MAX -> reachable c (full_zeros c).
Proof.
  intros Hc.
  apply (reach_write c
           {| buffer := zeros c; length := c; start := c; end_ := c |}
           (zeros c) c (full_zeros c) c).
  - apply reach_create; [lia | apply create_zeros; lia].
  - pose proof (write_empty
                  {| buffer := zeros c; length := c; start := c; end_ := c |}
                  (zeros c)) as H.
    cbn [buffer length start end_] in H.
    rewrite size_zeros in H by lia.
    rewrite H by (reflexivity || apply size_zeros || lia).
    unfold full_zeros, set_indices, set_buffer. cbn [buffer length].
    rewrite <- (size_zeros c) at 2 by lia.
    rewrite MemFacts.skipn_size, app_nil_r. reflexivity.
Qed.

Lemma wf_full_zeros (c : Z) : 0 < c <= INT_MAX -> wf (full_zeros c).
Proof.
  intros Hc. unfold wf, full_zeros. cbn [buffer length start end_].
  rewrite size_zeros by lia. lia.
Qed.

(** ** Properties of the public operations *)

(** C9.  [RingBuffer_clear] sets [start] and [end] to the capacity, whatever
    the state was: afterwards the used space is 0 and the available space
    is the capacity, and the storage and the capacity field are the ones
    of before. *)
Theorem clear_resets_indices (b : RingBuffer) :
  start (RingBuffer_clear b) = length b /\
  end_ (RingBuffer_clear b) = length b /\
  RingBuffer_used_space (RingBuffer_clear b) = 0 /\
  RingBuffer_available_space (RingBuffer_clear b) = length b /\
  buffer (RingBuffer_clear b) = buffer b /\
  length (RingBuffer_clear b) = length b.
Proof.
  unfold RingBuffer_used_space, RingBuffer_available_space, RingBuffer_clear.
  simpl. rewrite Z.eqb_refl. repeat split; reflexivity.
Qed.

(** C8 as stated fails when the capacity is more than [INT_MAX / 2]:
    after [create 2147483647] and a write of 2147483647 bytes the sum
    [length + end] wraps, the used space is [-2] and the available space
    is [-2147483647]. *)
Lemma used_plus_available_wraps :
  reachable 2147483647 (full_zeros 2147483647) /\
  RingBuffer_used_space (full_zeros 2147483647) = -2 /\
  RingBuffer_available_space (full_zeros 2147483647) = -2147483647 /\
  RingBuffer_used_space (full_zeros 2147483647)
  + RingBuffer_available_space (full_zeros 2147483647) <> 2147483647.
Proof.
  split; [apply reachable_full_zeros; unfold INT_MAX; lia|].
  assert (Hu : RingBuffer_used_space (full_zeros 2147483647) = -2)
    by reflexivity.
  assert (Ha : RingBuffer_available_space (full_zeros 2147483647)
               = -2147483647) by reflexivity.
  rewrite Hu, Ha. repeat split. discriminate.
Qed.

(** C8, amended.  When twice the capacity is a value of [int], used space
    plus available space is the capacity in every state reachable from
    [RingBuffer_create capacity] by the public operations. *)
Theorem reachable_used_plus_available (capacity : Z) (b : RingBuffer) :
  2 * capacity <= INT_MAX ->
  reachable capacity b ->
  RingBuffer_used_space b + RingBuffer_available_space b = capacity.
Proof.
  intros Hsmall H. apply reachable_wf in H; [|assumption].
  destruct H as [Hwf <-].
  apply used_plus_available; assumption.
Qed.

Lemma reachable_used_plus_available_witness :
  RingBuffer_used_space last_cell3 + RingBuffer_available_space last_cell3 = 3.
Proof.
  apply (reachable_used_plus_available 3 last_cell3).
  - unfold INT_MAX. lia.
  - exact reachable_last_cell3.
Defined.

(** C7.  A write of more than [length] bytes returns [-1] and leaves the
    record (storage, capacity, start, end) as it was.  A write of at most
    [length] bytes never returns [-1]; on a well-formed buffer, with
    [0 <= len] bytes present in the caller's block, it is defined and
    returns [len]. *)
Theorem write_capacity_exceeded (b : RingBuffer) (data : Mem.block) (len : Z) :
  (length b < len -> RingBuffer_write b data len = Ret (b, -1)) /\
  (len <= length b ->
   forall b', RingBuffer_write b data len <> Ret (b', -1)) /\
  (len <= length b -> wf b -> 0 <= len <= Mem.size data ->
   exists b', RingBuffer_write b data len = Ret (b', len)).
Proof.
  split; [|split].
  - intros H. unfold RingBuffer_write.
    apply Z.ltb_lt in H. rewrite H. reflexivity.
  - intros Hle b' H. apply write_inv_int in H.
    destruct H as [(? & _)|(_ & ? & ? & _)]; lia.
  - intros Hle Hwf Hlen. apply write_defined; [assumption|lia|lia].
Qed.

Lemma write_capacity_exceeded_witness :
  RingBuffer_write empty3 wxyz 4 = Ret (empty3, -1) /\
  (forall b', RingBuffer_write empty3 abc 3 <> Ret (b', -1)) /\
  (exists b', RingBuffer_write empty3 abc 3 = Ret (b', 3)).
Proof.
  destruct (write_capacity_exceeded empty3 wxyz 4) as (H1 & _ & _).
  destruct (write_capacity_exceeded empty3 abc 3) as (_ & H2 & H3).
  split; [|split].
  - apply H1. simpl. lia.
  - apply H2. simpl. lia.
  - apply H3; [simpl; lia | exact wf_empty3 | vm_compute; intuition congruence].
Defined.

(** C10 as stated fails when the capacity is more than [INT_MAX / 2]: on
    the full buffer of capacity 2147483647 the used space is [-2], so
    [pop(b, 0)] clamps its length to [-2] and passes it to [calloc] and
    [memcpy]. *)
Lemma pop_zero_negative_used_space :
  reachable 2147483647 (full_zeros 2147483647) /\
  start (full_zeros 2147483647) <> length (full_zeros 2147483647) /\
  RingBuffer_used_space (full_zeros 2147483647) = -2 /\
  RingBuffer_pop (full_zeros 2147483647) 0 = Undef.
Proof.
  split; [apply reachable_full_zeros; unfold INT_MAX; lia|].
  split; [discriminate|].
  split; reflexivity.
Qed.

(** C10, amended.  On a non-empty buffer whose capacity is at most
    [INT_MAX / 2] a pop of 0 bytes returns an allocated block of 0 bytes
    (not [NULL]) and leaves the record as it was: the indices are not
    sent to the capacity. *)
Theorem pop_zero_nonempty (b : RingBuffer) :
  wf b -> 2 * length b <= INT_MAX -> start b <> length b ->
  RingBuffer_pop b 0 = Ret (b, Some []).
Proof.
  intros Hwf Hsmall Hne. pose proof Hwf as (Hc & Hm & Hi).
  destruct Hi as [[? _]|[Hs He]]; [contradiction|].
  assert (Hu : 0 < RingBuffer_used_space b /\ 0 <= RingBuffer_dist_to_end b).
  { destruct (nonempty_spaces b Hwf Hsmall Hne)
      as [(? & -> & _ & ->)|(? & -> & _ & ->)]; lia. }
  unfold RingBuffer_pop.
  destruct (RingBuffer_used_space b <? 0) eqn:E;
    [apply Z.ltb_lt in E; lia|].
  apply Z.eqb_neq in Hne. rewrite Hne.
  destruct (RingBuffer_dist_to_end b <? 0) eqn:E';
    [apply Z.ltb_lt in E'; lia|].
  simpl Mem.calloc. cbn [bind].
  unfold Mem.memcpy. rewrite MemFacts.sub_ok by lia.
  cbn [bind Z.to_nat firstn]. unfold Mem.blit. simpl.
  rewrite add_small by int_range.
  rewrite Z.add_0_r, rem_below by lia.
  rewrite set_indices_same. reflexivity.
Qed.

Lemma pop_zero_nonempty_witness :
  RingBuffer_pop last_cell3 0 = Ret (last_cell3, Some []).
Proof.
  apply (pop_zero_nonempty last_cell3).
  - exact wf_last_cell3.
  - vm_compute. discriminate.
  - vm_compute. congruence.
Defined.

(** C6 as stated fails in one point: a safe write to an empty buffer
    moves [start], from the capacity to 0. *)
Lemma safe_write_on_empty_moves_start :
  ~ RingBuffer_available_space empty3 < 1 /\
  exists b',
    RingBuffer_safe_write empty3 ["a"]%byte 1 = Ret (b', 1) /\
    start empty3 = 3 /\ start b' = 0.
Proof.
  split.
  - vm_compute. discriminate.
  - eexists. vm_compute. repeat split.
Qed.

(** C6, amended.  On a buffer whose capacity is at most [INT_MAX / 2],
    [RingBuffer_safe_write] returns [-1] exactly when the available space
    is smaller than [len], and then the record is the one of before
    (start, end, storage, hence used and available space).  Otherwise it
    is [RingBuffer_write]: that call is defined when the caller's block
    holds the [0 <= len] bytes, returns [len], and drops no old byte:
    [start] of a non-empty buffer stays in place, the used space grows by
    [len], and every cell that holds an unread byte keeps it.  On an
    empty buffer, which has no unread byte, [start] goes from the
    capacity to 0. *)
Theorem safe_write_rejects_or_writes
        (b : RingBuffer) (data : Mem.block) (len : Z) :
  wf b -> 2 * length b <= INT_MAX ->
  (RingBuffer_available_space b < len <->
   exists b', RingBuffer_safe_write b data len = Ret (b', -1)) /\
  (RingBuffer_available_space b < len ->
   RingBuffer_safe_write b data len = Ret (b, -1)) /\
  (len <= RingBuffer_available_space b ->
   RingBuffer_safe_write b data len = RingBuffer_write b data len /\
   (0 <= len <= Mem.size data ->
    exists b', RingBuffer_write b data len = Ret (b', len)) /\
   (forall b' r, RingBuffer_write b data len = Ret (b', r) ->
      r = len /\
      (start b = length b -> start b' = 0) /\
      (start b <> length b ->
       start b' = start b /\
       RingBuffer_used_space b' = RingBuffer_used_space b + len) /\
      (forall i, unread_cell b i ->
                 Mem.get (buffer b') i = Mem.get (buffer b) i))).
Proof.
  intros Hwf Hsmall. pose proof Hwf as (Hc & Hm & Hi).
  assert (Hav : RingBuffer_available_space b <= length b).
  { pose proof (spaces_range b Hwf Hsmall). lia. }
  assert (Hrej : RingBuffer_available_space b < len ->
                 RingBuffer_safe_write b data len = Ret (b, -1)).
  { intros H. unfold RingBuffer_safe_write.
    apply Z.ltb_lt in H. rewrite H. reflexivity. }
  assert (Hdel : len <= RingBuffer_available_space b ->
                 RingBuffer_safe_write b data len
                 = RingBuffer_write b data len).
  { intros H. unfold RingBuffer_safe_write.
    apply Z.ltb_ge in H. rewrite H. reflexivity. }
  split; [|split].
  - split.
    + intros H. exists b. apply Hrej. assumption.
    + intros [b' H].
      destruct (Z_lt_le_dec (RingBuffer_available_space b) len) as [|Hle];
        [assumption|].
      rewrite (Hdel Hle) in H. apply write_inv_int in H.
      destruct H as [(? & _)|(_ & ? & ? & _)]; lia.
  - exact Hrej.
  - intros Hle. split; [exact (Hdel Hle)|]. split.
    { intros Hlen. apply write_defined; [assumption|lia|lia]. }
    intros b' r Hw.
    destruct (Z.eq_dec (start b) (length b)) as [E|E].
    + apply write_inv_int in Hw.
      destruct Hw as [(? & _)|(_ & -> & _ & _ & _ & Hcase)]; [lia|].
      destruct Hcase as [(_ & _ & -> & _)|(? & _)]; [|contradiction].
      split; [reflexivity|]. split; [reflexivity|].
      split; [contradiction|].
      intros i (Hne & _). contradiction.
    + destruct (write_within_available _ _ _ _ _ Hwf Hsmall E Hle Hw)
        as (-> & Hs' & Hu' & Hcells).
      split; [reflexivity|]. split; [contradiction|]. auto.
Qed.

Lemma safe_write_rejects_or_writes_witness :
  RingBuffer_safe_write full3 abc 1 = Ret (full3, -1) /\
  RingBuffer_safe_write empty3 abc 3 = RingBuffer_write empty3 abc 3.
Proof.
  assert (H3 : 2 * 3 <= INT_MAX) by (unfold INT_MAX; lia).
  destruct (safe_write_rejects_or_writes full3 abc 1 wf_full3 H3)
    as (_ & H1 & _).
  destruct (safe_write_rejects_or_writes empty3 abc 3 wf_empty3 H3)
    as (_ & _ & H2).
  split.
  - apply H1. vm_compute. reflexivity.
  - apply H2. vm_compute. congruence.
Defined.

(** ** Where the code departs from the specification *)

(** C1.  A pop of more bytes than are used does not always leave the buffer
    empty.  With one unread byte in the last cell of a buffer of capacity
    3, [pop 2] returns that byte, and then [start = 0], [end = 2]: the
    test [start == end + 1] comes after [start %= length] and compares
    0 with 3.  The buffer reports 3 used bytes and no available space. *)
Theorem pop_overlong_last_cell :
  reachable 3 last_cell3 /\
  RingBuffer_used_space last_cell3 = 1 /\
  RingBuffer_pop last_cell3 2 = Ret (full3, Some ["c"]%byte) /\
  start full3 <> length full3 /\
  RingBuffer_used_space full3 = 3 /\
  RingBuffer_available_space full3 = 0.
Proof.
  split; [exact reachable_last_cell3|].
  vm_compute. intuition congruence.
Qed.

(** C2.  A write that crosses the physical end of the storage is not read
    back in order.  In a buffer of capacity 5 holding ["q"] in cell 1, the
    write of ["wxyz"] (3 bytes fit before the end) stores ["wxy"] in cells
    2-4 and ["z"] in cell 0; popping the old byte and then 4 bytes returns
    ["wxzq"]: the pop splits its copy at [dist_to_end], the room after
    [end], and not at the distance from [start] to the end of storage. *)
Theorem wrapped_write_pop_out_of_order :
  reachable 5 one_of5 /\
  RingBuffer_dist_to_end one_of5 < 4 /\
  (w <- RingBuffer_write one_of5 wxyz 4 ;;
   p1 <- RingBuffer_pop (fst w) 1 ;;
   p2 <- RingBuffer_pop (fst p1) 4 ;;
   Ret (snd w, snd p1, snd p2))
  = Ret (4, Some ["q"]%byte, Some ["w"; "x"; "z"; "q"]%byte).
Proof.
  split; [exact reachable_one_of5|].
  vm_compute. intuition congruence.
Qed.

(** C3.  Write then pop on an empty buffer does not always return the
    bytes written.  On an empty buffer of capacity 3, writing ["abc"] and
    popping 3 bytes returns ["aab"]: [dist_to_end] is 0, so the pop copies
    one byte from [start] and the other two from cell 0. *)
Theorem write_pop_full_capacity :
  reachable 3 empty3 /\
  RingBuffer_write empty3 abc 3 = Ret (full3, 3) /\
  RingBuffer_pop full3 3 = Ret (full3, Some ["a"; "a"; "b"]%byte).
Proof.
  split; [exact reachable_empty3|].
  vm_compute. intuition congruence.
Qed.

(** C4.  The index invariant is broken by a write of 0 bytes to an empty
    buffer: it sets [start = 0] and [end = 0 - 1].  The state is neither
    the empty sentinel nor a pair of indices of the storage, and it
    reports 3 used bytes. *)
Theorem zero_write_breaks_index_invariant :
  exists b,
    RingBuffer_write empty3 [] 0 = Ret (b, 0) /\
    reachable 3 b /\
    start b = 0 /\ end_ b = -1 /\
    ~ index_invariant b /\
    RingBuffer_used_space b = 3.
Proof.
  exists {| buffer := buffer empty3; length := 3; start := 0; end_ := -1 |}.
  split; [reflexivity|]. split.
  - eapply (reach_write 3 empty3 [] 0); [exact reachable_empty3|reflexivity].
  - unfold index_invariant. simpl. repeat split; try reflexivity. lia.
Qed.

(** C5.  A write of more than the available space does not always drop
    the oldest bytes.  [wrapped5] holds ["dBCD"] (oldest first) in cells
    3, 4, 0, 1 and has one free cell.  The write of ["xy"] returns 2 and
    moves [start] by one, to cell 4, but its second copy goes to cell 0
    and replaces ["C"]; the oldest byte ["d"] stays in cell 3, now the
    cell of [end].  The unread bytes are then ["ByDxd"], and a pop of all
    5 bytes returns them, where dropping the oldest byte gives
    ["BCDxy"]. *)
Theorem overwrite_in_wrapped_ring :
  reachable 5 wrapped5 /\
  RingBuffer_available_space wrapped5 = 1 /\
  unread wrapped5 = ["d"; "B"; "C"; "D"]%byte /\
  RingBuffer_write wrapped5 ["x"; "y"]%byte 2 = Ret (overwritten5, 2) /\
  unread overwritten5 = ["B"; "y"; "D"; "x"; "d"]%byte /\
  unread overwritten5 <> skipn 1 (unread wrapped5) ++ ["x"; "y"]%byte /\
  (exists b', RingBuffer_pop overwritten5 5 =
              Ret (b', Some ["B"; "y"; "D"; "x"; "d"]%byte)).
Proof.
  split; [exact reachable_wrapped5|].
  repeat split; try (vm_compute; reflexivity).
  - vm_compute. discriminate.
  - eexists. vm_compute. reflexivity.
Qed.

(** The same write followed by two pops: after [write "xy" 2] on
    [wrapped5], popping the three old bytes left and then two bytes
    returns ["ByD"] and ["xd"]. *)
Lemma wrapped_overwrite_pop_order :
  (w <- RingBuffer_write wrapped5 ["x"; "y"]%byte 2 ;;
   p1 <- RingBuffer_pop (fst w) 3 ;;
   p2 <- RingBuffer_pop (fst p1) 2 ;;
   Ret (snd p1, snd p2))
  = Ret (Some ["B"; "y"; "D"]%byte, Some ["x"; "d"]%byte).
Proof. vm_compute. reflexivity. Qed.

(** A pop can read past the storage: with the unread bytes in cells 4
    and 0, [dist_to_end] is 3, so [pop 2] takes the branch without wrap
    and copies 2 bytes from cell 4 of a storage of 5 bytes. *)
Lemma pop_reads_past_storage :
  reachable 5 split5 /\
  RingBuffer_used_space split5 = 2 /\
  RingBuffer_pop split5 2 = Undef.
Proof.
  split; [exact reachable_split5|].
  split; vm_compute; reflexivity.
Qed.

(** * Further properties of the operations *)

(** ** Cells of copied blocks *)

Module CellFacts.
Import Mem MemFacts.

Lemma get_app (m1 m2 : block) (k : Z) :
  0 <= k ->
  get (m1 ++ m2) k = if k <? size m1 then get m1 k else get m2 (k - size m1).
Proof.
  intros Hk. unfold get, size.
  destruct (Z.ltb_spec k (Z.of_nat (Datatypes.length m1))).
  - apply app_nth1. lia.
  - rewrite app_nth2 by lia. f_equal. lia.
Qed.

Lemma get_skipn (m : block) (n k : Z) :
  0 <= n -> 0 <= k -> get (skipn (Z.to_nat n) m) k = get m (n + k).
Proof.
  intros Hn Hk. unfold get. rewrite nth_skipn. f_equal. lia.
Qed.

Lemma get_firstn (m : block) (n k : Z) :
  0 <= k < n -> get (firstn (Z.to_nat n) m) k = get m k.
Proof.
  intros Hk. unfold get. rewrite nth_firstn.
  destruct (Nat.ltb_spec (Z.to_nat k) (Z.to_nat n)); [reflexivity|lia].
Qed.

(** Two blocks of the same size with the same cells are equal. *)
Lemma block_ext (m1 m2 : block) :
  size m1 = size m2 ->
  (forall k, 0 <= k < size m1 -> get m1 k = get m2 k) ->
  m1 = m2.
Proof.
  unfold size, get. intros Hs Hc.
  apply (nth_ext m1 m2 x00 x00); [lia|].
  intros n Hn. specialize (Hc (Z.of_nat n)).
  rewrite Nat2Z.id in Hc. apply Hc. lia.
Qed.

Lemma sub_get (m : block) (off n : Z) (bs : block) (j : Z) :
  sub m off n = Ret bs -> 0 <= j < n -> get bs j = get m (off + j).
Proof.
  intros H Hj. apply sub_inv in H.
  destruct H as (Hoff & _ & _ & _ & ->).
  rewrite get_firstn by lia. apply get_skipn; lia.
Qed.

Lemma blit_get_inside (m : block) (off : Z) (bs m' : block) (i : Z) :
  blit m off bs = Ret m' ->
  off <= i < off + size bs ->
  get m' i = get bs (i - off).
Proof.
  intros H Hi. apply blit_inv in H.
  destruct H as (Hoff & Hfit & _ & ->).
  rewrite get_app by lia.
  rewrite size_firstn by (pose proof (size_nonneg bs); lia).
  destruct (Z.ltb_spec i off); [lia|].
  rewrite get_app by lia.
  destruct (Z.ltb_spec (i - off) (size bs)); [reflexivity|lia].
Qed.

(** The cells of the destination range hold the bytes of the source. *)
Lemma memcpy_get_inside (dst : block) (doff : Z) (src : block) (soff n : Z)
      (m' : block) (i : Z) :
  memcpy dst doff src soff n = Ret m' ->
  doff <= i < doff + n ->
  get m' i = get src (soff + (i - doff)).
Proof.
  unfold memcpy. intros H Hi.
  destruct (sub src soff n) as [bs|] eqn:E; [|discriminate].
  cbn [bind] in H. pose proof (sub_inv _ _ _ _ E) as (_ & _ & _ & Hbs & _).
  rewrite (blit_get_inside _ _ _ _ i H) by lia.
  apply (sub_get _ _ _ _ _ E). lia.
Qed.

End CellFacts.

(** ** The unread bytes of a well-formed buffer *)

Lemma mod_cases (a c : Z) :
  0 <= a < 2 * c ->
  (a < c /\ a mod c = a) \/ (c <= a /\ a mod c = a - c).
Proof.
  intros H. rewrite <- rem_mod by lia. apply rem_cases. exact H.
Qed.

Ltac mod_split a c :=
  let H := fresh "Hrange" in
  assert (H : 0 <= a < 2 * c) by lia;
  destruct (mod_cases a c H) as [[? ->]|[? ->]];
  clear H.

Lemma unread_size (b : RingBuffer) :
  wf b -> 2 * length b <= INT_MAX ->
  Mem.size (unread b) = RingBuffer_used_space b.
Proof.
  intros Hwf Hsmall. pose proof Hwf as (Hc & Hm & Hi). unfold unread.
  destruct (Z.eqb_spec (start b) (length b)) as [E|E].
  - destruct (empty_spaces b E) as (-> & _). reflexivity.
  - destruct Hi as [[? _]|[Hs He]]; [contradiction|].
    destruct (nonempty_spaces b Hwf Hsmall E) as [(? & -> & _)|(? & -> & _)];
      destruct (Z.leb_spec (start b) (end_ b)); try lia.
    + rewrite MemFacts.size_firstn; [lia|].
      rewrite MemFacts.size_skipn; lia.
    + rewrite MemFacts.size_app, MemFacts.size_skipn, MemFacts.size_firstn;
        lia.
Qed.

(** The [k]-th unread byte is in cell [(start + k) mod length]. *)
Lemma unread_get (b : RingBuffer) (k : Z) :
  wf b -> 2 * length b <= INT_MAX -> 0 <= k < RingBuffer_used_space b ->
  Mem.get (unread b) k = Mem.get (buffer b) ((start b + k) mod length b).
Proof.
  intros Hwf Hsmall Hk. pose proof Hwf as (Hc & Hm & Hi). unfold unread.
  destruct (Z.eqb_spec (start b) (length b)) as [E|E].
  { destruct (empty_spaces b E) as (Hu & _). lia. }
  destruct Hi as [[? _]|[Hs He]]; [contradiction|].
  destruct (nonempty_spaces b Hwf Hsmall E) as [(? & Hu & _)|(? & Hu & _)];
    rewrite Hu in Hk;
    destruct (Z.leb_spec (start b) (end_ b)); try lia.
  - rewrite CellFacts.get_firstn, CellFacts.get_skipn by lia.
    mod_split (start b + k) (length b); [reflexivity|lia].
  - rewrite CellFacts.get_app by lia.
    rewrite MemFacts.size_skipn by lia. rewrite Hm.
    destruct (Z.ltb_spec k (length b - start b)).
    + rewrite CellFacts.get_skipn by lia.
      mod_split (start b + k) (length b); [reflexivity|lia].
    + rewrite CellFacts.get_firstn by lia.
      mod_split (start b + k) (length b); [lia|]. f_equal. lia.
Qed.

(** The cell of an unread byte is an unread cell. *)
Lemma unread_cell_mod (b : RingBuffer) (k : Z) :
  wf b -> 2 * length b <= INT_MAX -> 0 <= k < RingBuffer_used_space b ->
  unread_cell b ((start b + k) mod length b).
Proof.
  intros Hwf Hsmall Hk. pose proof Hwf as (Hc & Hm & Hi).
  assert (E : start b <> length b).
  { intros E. destruct (empty_spaces b E) as (Hu & _). lia. }
  destruct Hi as [[? _]|[Hs He]]; [contradiction|].
  unfold unread_cell. split; [assumption|].
  destruct (nonempty_spaces b Hwf Hsmall E) as [(? & Hu & _)|(? & Hu & _)];
    rewrite Hu in Hk;
    destruct (Z.leb_spec (start b) (end_ b)); try lia;
    mod_split (start b + k) (length b); lia.
Qed.

(** ** Where a write stores the data *)

(** On a non-empty buffer the byte [j] of the data goes to cell
    [end + 1 + j]; in the wrap branch the bytes from [dist_to_end] on go
    to the cells from 0 on, over whatever the first copy stored there. *)
Lemma write_get_data (b : RingBuffer) (data : Mem.block) (len : Z)
      (b' : RingBuffer) (r : Z) (j : Z) :
  wf b ->
  RingBuffer_write b data len = Ret (b', r) ->
  start b <> length b -> len <= length b -> 0 <= j < len ->
  if RingBuffer_dist_to_end b <? len
  then (j < RingBuffer_dist_to_end b ->
        len - RingBuffer_dist_to_end b <= end_ b + 1 + j ->
        Mem.get (buffer b') (end_ b + 1 + j) = Mem.get data j) /\
       (RingBuffer_dist_to_end b <= j ->
        Mem.get (buffer b') (j - RingBuffer_dist_to_end b) = Mem.get data j)
  else Mem.get (buffer b') (end_ b + 1 + j) = Mem.get data j.
Proof.
  unfold RingBuffer_write. intros Hwf H Hne Hcap Hj.
  pose proof Hwf as (Hc & _ & _).
  pose proof (dist_range b Hwf Hne) as Hd.
  destruct (Z.ltb_spec (length b) len); [lia|].
  apply Z.eqb_neq in Hne. rewrite Hne in H.
  destruct (Z.ltb_spec (RingBuffer_dist_to_end b) len).
  - destruct (Mem.memcpy (buffer b) (end_ b + 1) data 0
                (RingBuffer_dist_to_end b)) as [m1|] eqn:Em1;
      [|discriminate].
    cbn [bind] in H.
    rewrite (sub_small len (RingBuffer_dist_to_end b)) in H by int_range.
    destruct (Mem.memcpy m1 0 data (RingBuffer_dist_to_end b)
                (len - RingBuffer_dist_to_end b)) as [m2|] eqn:Em2;
      [|discriminate].
    cbn [bind] in H. injection H as <- _. simpl.
    pose proof (MemFacts.memcpy_inv _ _ _ _ _ _ Em1) as (? & ? & _).
    split.
    + intros Hlt Hfree.
      rewrite (MemFacts.memcpy_get_outside _ _ _ _ _ _ _ Em2) by lia.
      rewrite (CellFacts.memcpy_get_inside _ _ _ _ _ _ _ Em1) by lia.
      f_equal. lia.
    + intros Hge.
      rewrite (CellFacts.memcpy_get_inside _ _ _ _ _ _ _ Em2) by lia.
      f_equal. lia.
  - destruct (Mem.memcpy (buffer b) (end_ b + 1) data 0 len)
      as [m1|] eqn:Em1; [|discriminate].
    cbn [bind] in H. injection H as <- _. simpl.
    rewrite (CellFacts.memcpy_get_inside _ _ _ _ _ _ _ Em1) by lia.
    f_equal. lia.
Qed.

Lemma write_empty_get (b : RingBuffer) (data : Mem.block) (len : Z)
      (b' : RingBuffer) (r : Z) (j : Z) :
  RingBuffer_write b data len = Ret (b', r) ->
  start b = length b -> len <= length b -> 0 <= j < len ->
  Mem.get (buffer b') j = Mem.get data j.
Proof.
  unfold RingBuffer_write. intros H He Hcap Hj.
  destruct (Z.ltb_spec (length b) len); [lia|].
  apply Z.eqb_eq in He. rewrite He in H.
  destruct (Mem.memcpy (buffer b) 0 data 0 len) as [m|] eqn:Em;
    [|discriminate].
  cbn [bind] in H. injection H as <- _. simpl.
  rewrite (CellFacts.memcpy_get_inside _ _ _ _ _ _ _ Em) by lia.
  f_equal. lia.
Qed.

(** A write of [1 .. length] bytes to an empty buffer: the unread bytes
    are the bytes written. *)
Lemma write_empty_unread (b : RingBuffer) (data : Mem.block) (len : Z)
      (b' : RingBuffer) (r : Z) :
  wf b -> 2 * length b <= INT_MAX ->
  start b = length b -> 1 <= len <= length b ->
  RingBuffer_write b data len = Ret (b', r) ->
  unread b' = firstn (Z.to_nat len) data.
Proof.
  intros Hwf Hsmall He Hlen Hw. pose proof Hwf as (Hc & Hm & _).
  destruct (write_wf _ _ _ _ _ Hwf Hsmall Hw) as [Hwf' Hl'].
  assert (Hsmall' : 2 * length b' <= INT_MAX) by (rewrite Hl'; exact Hsmall).
  pose proof (write_inv _ _ _ _ _ Hwf Hsmall Hw) as Hinv.
  destruct Hinv as [(? & _)|(_ & _ & Hdata & _ & _ & Hcase)]; [lia|].
  destruct Hcase as [(_ & Hs' & He')|(? & _)]; [|contradiction].
  assert (Hne' : start b' <> length b') by lia.
  assert (Hu' : RingBuffer_used_space b' = len).
  { destruct (nonempty_spaces b' Hwf' Hsmall' Hne')
      as [(? & -> & _)|(? & -> & _)];
      lia. }
  apply CellFacts.block_ext.
  - rewrite unread_size, Hu', MemFacts.size_firstn by (assumption || lia).
    reflexivity.
  - intros k Hk. rewrite unread_size, Hu' in Hk by assumption.
    rewrite unread_get by (assumption || lia).
    rewrite Hs', Hl', CellFacts.get_firstn by lia.
    mod_split (0 + k) (length b); [|lia].
    apply (write_empty_get _ _ _ _ _ _ Hw); (assumption || lia).
Qed.

(** A write that fits the available space of a non-empty buffer appends
    its bytes to the unread bytes. *)
Lemma write_nonempty_appends (b : RingBuffer) (data : Mem.block) (len : Z)
      (b' : RingBuffer) (r : Z) :
  wf b -> 2 * length b <= INT_MAX ->
  start b <> length b -> len <= RingBuffer_available_space b ->
  RingBuffer_write b data len = Ret (b', r) ->
  unread b' = unread b ++ firstn (Z.to_nat len) data.
Proof.
  intros Hwf Hsmall Hne Hle Hw. pose proof Hwf as (Hc & Hm & Hi).
  destruct Hi as [[? _]|[Hs He]]; [contradiction|].
  destruct (write_wf _ _ _ _ _ Hwf Hsmall Hw) as [Hwf' Hl'].
  assert (Hsmall' : 2 * length b' <= INT_MAX) by (rewrite Hl'; exact Hsmall).
  destruct (write_within_available _ _ _ _ _ Hwf Hsmall Hne Hle Hw)
    as (-> & Hs' & Hu' & Hcells).
  pose proof (write_inv _ _ _ _ _ Hwf Hsmall Hw) as Hinv.
  assert (Hav : RingBuffer_available_space b <= length b).
  { destruct (nonempty_spaces b Hwf Hsmall Hne)
      as [(? & _ & -> & _)|(? & _ & -> & _)]; lia. }
  destruct Hinv as [(? & _)|(_ & _ & Hdata & _ & _ & _)]; [lia|].
  apply CellFacts.block_ext.
  - rewrite MemFacts.size_app, !unread_size, Hu', MemFacts.size_firstn
      by (assumption || lia).
    reflexivity.
  - intros k Hk. rewrite unread_size, Hu' in Hk by assumption.
    rewrite unread_get by (assumption || lia).
    rewrite CellFacts.get_app, unread_size by (assumption || lia).
    rewrite Hs', Hl'.
    destruct (Z.ltb_spec k (RingBuffer_used_space b)).
    + rewrite Hcells by (apply unread_cell_mod; [assumption|assumption|lia]).
      symmetry. apply unread_get; [assumption|assumption|lia].
    + rewrite CellFacts.get_firstn by lia.
      pose proof (write_get_data _ _ _ _ _
                    (k - RingBuffer_used_space b) Hwf Hw Hne) as Hcell.
      specialize (Hcell ltac:(lia) ltac:(lia)).
      destruct (nonempty_spaces b Hwf Hsmall Hne)
        as [(Hord & Hu & Ha & Hd)|(Hord & Hu & Ha & Hd)];
        rewrite Hd in Hcell; rewrite Hu in *; rewrite Ha in *.
      * (* the data does not wrap yet *)
        destruct (Z.ltb_spec (length b - end_ b - 1) len).
        -- destruct Hcell as [Hlow Hhigh].
           mod_split (start b + k) (length b).
           ++ rewrite <- Hlow by lia. f_equal. lia.
           ++ rewrite <- Hhigh by lia. f_equal. lia.
        -- mod_split (start b + k) (length b); [|lia].
           rewrite <- Hcell. f_equal. lia.
      * (* the data wraps: the free cells are those from [end + 1] on *)
        destruct (Z.ltb_spec (start b - end_ b - 1) len); [lia|].
        mod_split (start b + k) (length b); [lia|].
        rewrite <- Hcell. f_equal. lia.
Qed.

(** ** What a write of more than the available space keeps *)

(** X16.  On a buffer whose capacity is at most [INT_MAX / 2], when the
    unread bytes do not wrap ([start <= end]), a write of more than the
    available space drops the [len - available] oldest bytes and
    appends its bytes to the others. *)
Lemma write_overwrite_unwrapped_unread
      (b : RingBuffer) (data : Mem.block) (len : Z)
      (b' : RingBuffer) (r : Z) :
  wf b -> 2 * length b <= INT_MAX -> start b <= end_ b < length b ->
  RingBuffer_available_space b < len -> len <= length b ->
  RingBuffer_write b data len = Ret (b', r) ->
  unread b' =
  skipn (Z.to_nat (len - RingBuffer_available_space b)) (unread b)
    ++ firstn (Z.to_nat len) data.
Proof.
  intros Hwf Hsmall Hord Hover Hcap Hw. pose proof Hwf as (Hc & Hm & Hi).
  assert (Hne : start b <> length b) by lia.
  destruct Hi as [[? _]|[Hs He]]; [contradiction|].
  destruct (write_wf _ _ _ _ _ Hwf Hsmall Hw) as [Hwf' Hl'].
  assert (Hsmall' : 2 * length b' <= INT_MAX) by (rewrite Hl'; exact Hsmall).
  pose proof (write_inv _ _ _ _ _ Hwf Hsmall Hw) as Hinv.
  destruct Hinv as [(? & _)|(_ & -> & Hdata & _ & _ & _)]; [lia|].
  destruct (write_overwrite_indices b data len Hwf) as (b'' & Hw'' & Hs' & Hu');
    try lia.
  rewrite Hw in Hw''. injection Hw'' as <-.
  pose proof (unread_size b Hwf Hsmall) as Hsz.
  pose proof (fun i => write_overwrite_unwrapped _ _ _ _ _ i
                         Hwf Hsmall Hord Hover Hw) as Hkeep.
  destruct (nonempty_spaces b Hwf Hsmall Hne)
    as [(_ & Hu & Ha & Hd)|(? & _)]; [|lia].
  rewrite Hu in *. rewrite Ha in *.
  rewrite Z.min_r in Hu' by lia.
  apply CellFacts.block_ext.
  - rewrite MemFacts.size_app, unread_size, Hu', MemFacts.size_skipn,
      MemFacts.size_firstn by (assumption || lia).
    lia.
  - intros k Hk. rewrite unread_size, Hu' in Hk by assumption.
    rewrite unread_get by (assumption || lia).
    rewrite CellFacts.get_app, MemFacts.size_skipn by lia.
    rewrite Hs', Hl', Hsz.
    destruct (Z.ltb_spec k
                (end_ b - start b + 1
                 - (len - (length b - (end_ b - start b + 1))))).
    + rewrite CellFacts.get_skipn, unread_get by (assumption || lia).
      mod_split (start b + (len - (length b - (end_ b - start b + 1))))
                (length b); [|lia].
      mod_split (start b + (len - (length b - (end_ b - start b + 1))) + k)
                (length b); [|lia].
      mod_split (start b + (len - (length b - (end_ b - start b + 1)) + k))
                (length b); [|lia].
      rewrite Hkeep by lia. f_equal. lia.
    + rewrite CellFacts.get_firstn by lia.
      pose proof (write_get_data _ _ _ _ _
                    (k - (end_ b - start b + 1
                          - (len - (length b - (end_ b - start b + 1)))))
                    Hwf Hw Hne) as Hcell.
      specialize (Hcell ltac:(lia) ltac:(lia)).
      rewrite Hd in Hcell.
      destruct (Z.ltb_spec (length b - end_ b - 1) len); [|lia].
      destruct Hcell as [Hlow Hhigh].
      mod_split (start b + (len - (length b - (end_ b - start b + 1))))
                (length b).
      * mod_split (start b + (len - (length b - (end_ b - start b + 1))) + k)
                  (length b).
        -- rewrite <- Hlow by lia. f_equal. lia.
        -- rewrite <- Hhigh by lia. f_equal. lia.
      * mod_split (start b + (len - (length b - (end_ b - start b + 1)))
                   - length b + k) (length b); [|lia].
        rewrite <- Hhigh by lia. f_equal. lia.
Qed.

(** ** Well-formed example buffers *)

Lemma wf_one_of5 : wf one_of5.
Proof. unfold wf. vm_compute. intuition congruence. Qed.

Lemma wf_wrapped5 : wf wrapped5.
Proof. unfold wf. vm_compute. intuition congruence. Qed.

Lemma wf_split5 : wf split5.
Proof. unfold wf. vm_compute. intuition congruence. Qed.

(** ** The state kept by every run *)

(** X1.  When twice the capacity is a value of [int], in every state
    reached from [RingBuffer_create capacity] the field [length] is the
    capacity, the storage has that many bytes, and the indices are both
    the capacity, or [start] is an index of the storage and [end] is an
    index of the storage or [-1]. *)
Theorem reachable_capacity_and_indices (capacity : Z) (b : RingBuffer) :
  2 * capacity <= INT_MAX ->
  reachable capacity b ->
  length b = capacity /\ Mem.size (buffer b) = capacity /\
  ((start b = capacity /\ end_ b = capacity) \/
   (0 <= start b < capacity /\ -1 <= end_ b < capacity)).
Proof.
  intros Hsmall H. apply reachable_wf in H; [|assumption].
  destruct H as [(_ & Hm & Hi) <-]. auto.
Qed.

Lemma reachable_capacity_and_indices_witness :
  length wrapped5 = 5 /\ Mem.size (buffer wrapped5) = 5 /\
  ((start wrapped5 = 5 /\ end_ wrapped5 = 5) \/
   (0 <= start wrapped5 < 5 /\ -1 <= end_ wrapped5 < 5)).
Proof.
  apply (reachable_capacity_and_indices 5 wrapped5).
  - unfold INT_MAX. lia.
  - exact reachable_wrapped5.
Defined.

(** ** The space measures *)

(** X3.  On a well-formed buffer whose capacity is at most [INT_MAX / 2]
    the used space is between 0 and the capacity; it is 0, and the
    available space is the capacity, exactly when [start] is the
    capacity. *)
Theorem used_space_zero_iff_empty (b : RingBuffer) :
  wf b -> 2 * length b <= INT_MAX ->
  0 <= RingBuffer_used_space b <= length b /\
  (RingBuffer_used_space b = 0 <-> start b = length b) /\
  (RingBuffer_available_space b = length b <-> start b = length b).
Proof.
  intros Hwf Hsmall. pose proof Hwf as (Hc & _ & Hi).
  destruct (Z.eq_dec (start b) (length b)) as [E|E].
  - destruct (empty_spaces b E) as (-> & -> & _).
    repeat split; auto; lia.
  - destruct Hi as [[? _]|[Hs He]]; [contradiction|].
    destruct (nonempty_spaces b Hwf Hsmall E)
      as [(? & -> & -> & _)|(? & -> & -> & _)];
      repeat split; intros; try lia; contradiction.
Qed.

Lemma used_space_zero_iff_empty_witness :
  0 <= RingBuffer_used_space wrapped5 <= 5 /\
  (RingBuffer_used_space wrapped5 = 0 <-> start wrapped5 = 5) /\
  (RingBuffer_available_space wrapped5 = 5 <-> start wrapped5 = 5).
Proof.
  apply (used_space_zero_iff_empty wrapped5).
  - exact wf_wrapped5.
  - vm_compute. discriminate.
Defined.

(** X4.  [RingBuffer_dist_to_end] on a well-formed buffer whose capacity
    is at most [INT_MAX / 2]: it is never negative and never more than
    the available space.  On a non-empty buffer the cells it counts,
    those after [end], are cells of the storage; it is the available
    space when the unread bytes wrap, and the available space less
    [start] when they do not.  On the empty buffer it is the capacity. *)
Theorem dist_to_end_bounds (b : RingBuffer) :
  wf b -> 2 * length b <= INT_MAX ->
  0 <= RingBuffer_dist_to_end b <= RingBuffer_available_space b /\
  (start b <> length b ->
   end_ b + 1 + RingBuffer_dist_to_end b <= length b /\
   (end_ b < start b ->
    RingBuffer_dist_to_end b = RingBuffer_available_space b) /\
   (start b <= end_ b ->
    RingBuffer_dist_to_end b = RingBuffer_available_space b - start b)) /\
  (start b = length b -> RingBuffer_dist_to_end b = length b).
Proof.
  intros Hwf Hsmall. pose proof Hwf as (Hc & _ & Hi).
  destruct (Z.eq_dec (start b) (length b)) as [E|E].
  - destruct (empty_spaces b E) as (_ & -> & ->).
    split; [lia|]. split; [contradiction|reflexivity].
  - destruct Hi as [[? _]|[Hs He]]; [contradiction|].
    destruct (nonempty_spaces b Hwf Hsmall E)
      as [(? & _ & -> & ->)|(? & _ & -> & ->)];
      repeat split; intros; lia.
Qed.

Lemma dist_to_end_bounds_witness :
  0 <= RingBuffer_dist_to_end one_of5 <= RingBuffer_available_space one_of5 /\
  (start one_of5 <> length one_of5 ->
   end_ one_of5 + 1 + RingBuffer_dist_to_end one_of5 <= length one_of5 /\
   (end_ one_of5 < start one_of5 ->
    RingBuffer_dist_to_end one_of5 = RingBuffer_available_space one_of5) /\
   (start one_of5 <= end_ one_of5 ->
    RingBuffer_dist_to_end one_of5
    = RingBuffer_available_space one_of5 - start one_of5)) /\
  (start one_of5 = length one_of5 ->
   RingBuffer_dist_to_end one_of5 = length one_of5).
Proof.
  apply (dist_to_end_bounds one_of5).
  - exact wf_one_of5.
  - vm_compute. discriminate.
Defined.

(** ** Pops *)

(** X5.  A pop returns [NULL] exactly on the empty buffer, whatever the
    length asked for, and then it leaves the record as it was. *)
Theorem pop_null_iff_empty (b : RingBuffer) (len : Z) :
  (start b = length b -> RingBuffer_pop b len = Ret (b, None)) /\
  (forall b' r, RingBuffer_pop b len = Ret (b', r) ->
                r = None -> start b = length b /\ b' = b).
Proof.
  split.
  - intros E. unfold RingBuffer_pop.
    apply Z.eqb_eq in E. rewrite E. reflexivity.
  - intros b' r H Hr. apply pop_inv_int in H. cbv zeta in H.
    destruct H as [(? & ? & _)|(_ & _ & (data & -> & _) & _)];
      [auto|discriminate].
Qed.

Lemma pop_null_iff_empty_witness :
  RingBuffer_pop empty3 2 = Ret (empty3, None).
Proof.
  destruct (pop_null_iff_empty empty3 2) as [H _].
  apply H. reflexivity.
Defined.

(** X6.  A pop that returns a block returns [min len used_space] bytes; it
    changes neither the storage nor the capacity, and [end] only when it
    sends both indices to the capacity. *)
Theorem pop_result_size_and_frame (b : RingBuffer) (len : Z)
        (b' : RingBuffer) (data : Mem.block) :
  RingBuffer_pop b len = Ret (b', Some data) ->
  Mem.size data = Z.min len (RingBuffer_used_space b) /\
  buffer b' = buffer b /\ length b' = length b /\
  (end_ b' = end_ b \/ (start b' = length b /\ end_ b' = length b)).
Proof.
  intros H. apply pop_inv_int in H. cbv zeta in H.
  destruct H as [(_ & _ & ?)|(_ & _ & (d & Hd & Hsz) & ->)];
    [discriminate|].
  injection Hd as <-. split.
  - rewrite Hsz. destruct (Z.ltb_spec (RingBuffer_used_space b) len); lia.
  - match goal with
    | |- context [if ?c then _ else _] => destruct c
    end; simpl; auto.
Qed.

Lemma pop_result_size_and_frame_witness :
  Mem.size ["B"; "y"; "D"]%byte = Z.min 3 (RingBuffer_used_space overwritten5) /\
  buffer (set_indices overwritten5 2 3) = buffer overwritten5 /\
  length (set_indices overwritten5 2 3) = length overwritten5 /\
  (end_ (set_indices overwritten5 2 3) = end_ overwritten5 \/
   (start (set_indices overwritten5 2 3) = length overwritten5 /\
    end_ (set_indices overwritten5 2 3) = length overwritten5)).
Proof.
  apply (pop_result_size_and_frame overwritten5 3).
  vm_compute. reflexivity.
Defined.

(** X7.  On a buffer whose capacity is at most [INT_MAX / 2], a pop of
    fewer bytes than are used takes the oldest bytes off the unread
    bytes, whatever block it returns: [end] stays, the used space
    shrinks by the length and the unread bytes lose their first [len]
    bytes. *)
Theorem pop_partial_removes_oldest (b : RingBuffer) (len : Z)
        (b' : RingBuffer) (r : option Mem.block) :
  wf b -> 2 * length b <= INT_MAX -> 0 <= len < RingBuffer_used_space b ->
  RingBuffer_pop b len = Ret (b', r) ->
  end_ b' = end_ b /\
  start b' = (start b + len) mod length b /\
  RingBuffer_used_space b' = RingBuffer_used_space b - len /\
  unread b' = skipn (Z.to_nat len) (unread b).
Proof.
  intros Hwf Hsmall Hlen H. pose proof Hwf as (Hc & Hm & Hi).
  destruct (pop_wf _ _ _ _ Hwf Hsmall H) as [Hwf' Hl'].
  assert (Hsmall' : 2 * length b' <= INT_MAX) by (rewrite Hl'; exact Hsmall).
  apply pop_inv in H; [|assumption|assumption]. cbv zeta in H.
  revert H.
  destruct (Z.ltb_spec (RingBuffer_used_space b) len) as [Hlt|Hge]; [lia|].
  intros H.
  destruct H as [(E & _)|(Hne & Hn & _ & Hb')].
  { destruct (empty_spaces b E) as (Hu & _). lia. }
  destruct Hi as [[? _]|[Hs He]]; [contradiction|].
  assert (Hrem : Z.rem (start b + len) (length b)
                 = (start b + len) mod length b) by (apply rem_mod; lia).
  assert (Hstay : (len =? 0) = true \/
                  (start b + len) mod length b <> end_ b + 1).
  { destruct (Z.eqb_spec len 0); [auto|right].
    destruct (nonempty_spaces b Hwf Hsmall Hne) as [(? & Hu & _)|(? & Hu & _)];
      rewrite Hu in Hlen;
      mod_split (start b + len) (length b); lia. }
  assert (Hb : b' = set_indices b ((start b + len) mod length b) (end_ b)).
  { rewrite Hb', Hrem.
    destruct Hstay as [-> | Hneq]; [reflexivity|].
    apply Z.eqb_neq in Hneq. rewrite Hneq, andb_false_r. reflexivity. }
  assert (Hs' : start b' = (start b + len) mod length b)
    by (rewrite Hb; reflexivity).
  assert (He' : end_ b' = end_ b) by (rewrite Hb; reflexivity).
  assert (Hbuf : buffer b' = buffer b) by (rewrite Hb; reflexivity).
  assert (Hne' : start b' <> length b').
  { rewrite Hs', Hl'.
    pose proof (Z.mod_pos_bound (start b + len) (length b) (proj1 Hc)).
    lia. }
  assert (Hu' : RingBuffer_used_space b' = RingBuffer_used_space b - len).
  { destruct (nonempty_spaces b Hwf Hsmall Hne) as [(? & Hu & _)|(? & Hu & _)];
      rewrite Hu in *;
      (destruct (nonempty_spaces b' Hwf' Hsmall' Hne')
        as [(Hord' & -> & _)|(Hord' & -> & _)]);
      revert Hord'; rewrite ?Hl', Hs', He';
      mod_split (start b + len) (length b); lia. }
  repeat split; try assumption.
  apply CellFacts.block_ext.
  - rewrite unread_size, Hu', MemFacts.size_skipn, unread_size
      by (assumption || (rewrite ?unread_size by assumption; lia)).
    reflexivity.
  - intros k Hk. rewrite unread_size, Hu' in Hk by assumption.
    rewrite unread_get, CellFacts.get_skipn, unread_get
      by (assumption || lia).
    rewrite Hbuf, Hs', Hl', Zplus_mod_idemp_l, Z.add_assoc. reflexivity.
Qed.

Lemma pop_partial_removes_oldest_witness :
  unread (set_indices overwritten5 2 3)
  = skipn (Z.to_nat 3) (unread overwritten5).
Proof.
  apply (pop_partial_removes_oldest overwritten5 3 _
           (Some ["B"; "y"; "D"]%byte)).
  - unfold wf. vm_compute. intuition congruence.
  - vm_compute. discriminate.
  - vm_compute. intuition congruence.
  - vm_compute. reflexivity.
Defined.

Lemma pop_keeps_storage (b : RingBuffer) (len : Z) (b' : RingBuffer)
      (r : option Mem.block) :
  RingBuffer_pop b len = Ret (b', r) -> buffer b' = buffer b.
Proof.
  intros H. apply pop_inv_int in H. cbv zeta in H.
  destruct H as [(_ & -> & _)|(_ & _ & _ & ->)]; [reflexivity|].
  match goal with
  | |- context [if ?c then _ else _] => destruct c
  end; reflexivity.
Qed.

(** A pop of more than the used space is the pop of the used space. *)
Lemma pop_clamp (b : RingBuffer) (len : Z) :
  RingBuffer_used_space b <= len ->
  RingBuffer_pop b len = RingBuffer_pop b (RingBuffer_used_space b).
Proof.
  intros H. unfold RingBuffer_pop.
  rewrite Z.ltb_irrefl.
  destruct (Z.ltb_spec (RingBuffer_used_space b) len); [reflexivity|].
  replace len with (RingBuffer_used_space b) by lia. reflexivity.
Qed.

(** X8.  On a buffer whose capacity is at most [INT_MAX / 2], a pop of at
    least the used space returns [used_space] bytes and leaves the
    storage as it was.  It sends the indices to the capacity, so that
    the buffer is empty, unless [end] is the last index of the storage;
    then it sets [start] to 0, keeps [end], and the buffer counts
    [length] used bytes. *)
Theorem pop_everything (b : RingBuffer) (len : Z)
        (b' : RingBuffer) (r : option Mem.block) :
  wf b -> 2 * length b <= INT_MAX ->
  start b <> length b -> RingBuffer_used_space b <= len ->
  RingBuffer_pop b len = Ret (b', r) ->
  (exists data, r = Some data /\ Mem.size data = RingBuffer_used_space b) /\
  buffer b' = buffer b /\
  (end_ b <> length b - 1 ->
   start b' = length b /\ end_ b' = length b /\
   RingBuffer_used_space b' = 0) /\
  (end_ b = length b - 1 ->
   start b' = 0 /\ end_ b' = end_ b /\
   RingBuffer_used_space b' = length b).
Proof.
  intros Hwf Hsmall Hne Hlen H.
  rewrite pop_clamp in H by assumption.
  rewrite <- (pop_clamp b (RingBuffer_used_space b + 1)) in H by lia.
  assert (Hlt : RingBuffer_used_space b < RingBuffer_used_space b + 1)
    by lia.
  destruct (pop_overlong _ _ _ _ Hwf Hsmall Hne Hlt H)
    as ((data & -> & Hsz) & Hempty & Hfull).
  pose proof (pop_keeps_storage _ _ _ _ H) as Hbuf.
  split; [eauto|]. split; [assumption|]. split; [|assumption].
  intros He. destruct (Hempty He) as [Hs' He'].
  split; [assumption|]. split; [assumption|].
  destruct (pop_wf _ _ _ _ Hwf Hsmall H) as [_ Hl'].
  apply empty_spaces. congruence.
Qed.

Lemma pop_everything_witness :
  start full3 = 0 /\ end_ full3 = end_ last_cell3 /\
  RingBuffer_used_space full3 = length last_cell3.
Proof.
  apply (pop_everything last_cell3 2 full3 (Some ["c"]%byte)).
  - exact wf_last_cell3.
  - vm_compute. discriminate.
  - vm_compute. congruence.
  - vm_compute. congruence.
  - vm_compute. reflexivity.
  - reflexivity.
Defined.

Lemma clamped_length (b : RingBuffer) (len : Z) :
  (if RingBuffer_used_space b <? len then RingBuffer_used_space b else len)
  = Z.min len (RingBuffer_used_space b).
Proof. destruct (Z.ltb_spec (RingBuffer_used_space b) len); lia. Qed.



(** X10.  On a non-empty well-formed buffer whose capacity is at most
    [INT_MAX / 2] a pop has a defined outcome exactly when its first
    copy stays inside the storage:
    [dist_to_end + 1] bytes from [start] in the wrap branch, the clamped
    length from [start] otherwise.  (When the unread bytes wrap this can
    fail: the copy then reads past the last cell.) *)
Theorem pop_defined_iff (b : RingBuffer) (len : Z) :
  wf b -> 2 * length b <= INT_MAX -> start b <> length b -> 0 <= len ->
  ((exists b' r, RingBuffer_pop b len = Ret (b', r)) <->
   (if RingBuffer_dist_to_end b <? Z.min len (RingBuffer_used_space b)
    then start b + RingBuffer_dist_to_end b + 1 <= length b
    else start b + Z.min len (RingBuffer_used_space b) <= length b)).
Proof.
  intros Hwf Hsmall Hne Hlen. pose proof Hwf as (Hc & Hm & Hi).
  destruct Hi as [[? _]|[Hs He]]; [contradiction|].
  assert (Hu : 0 <= RingBuffer_used_space b <= length b).
  { destruct (nonempty_spaces b Hwf Hsmall Hne) as [(? & -> & _)|(? & -> & _)];
      lia. }
  rewrite pop_reads by assumption. cbv zeta. rewrite clamped_length.
  set (n := Z.min len (RingBuffer_used_space b)).
  set (d := RingBuffer_dist_to_end b).
  assert (Hn : 0 <= n <= length b) by (unfold n; lia).
  assert (Hd : 0 <= d).
  { unfold d. destruct (nonempty_spaces b Hwf Hsmall Hne)
      as [(? & _ & _ & ->)|(? & _ & _ & ->)]; lia. }
  destruct (Z.eqb_spec (start b) (length b)); [contradiction|].
  unfold Mem.calloc. destruct (Z.ltb_spec n 0) as [?|_]; [lia|].
  cbn [bind].
  destruct (Z.ltb_spec d n) as [Hwrap|Hflat].
  - split.
    + intros (b' & r & H).
      destruct (Mem.sub (buffer b) (start b) (d + 1)) as [bs1|] eqn:E1;
        [|discriminate].
      apply MemFacts.sub_inv in E1. lia.
    + intros Hin. rewrite !MemFacts.sub_ok by lia. cbn [bind]. eauto.
  - split.
    + intros (b' & r & H).
      destruct (Mem.sub (buffer b) (start b) n) as [bs1|] eqn:E1;
        [|discriminate].
      apply MemFacts.sub_inv in E1. lia.
    + intros Hin. rewrite MemFacts.sub_ok by lia. cbn [bind]. eauto.
Qed.

Lemma pop_defined_iff_witness :
  (exists b' r, RingBuffer_pop split5 1 = Ret (b', r)) /\
  ~ (exists b' r, RingBuffer_pop split5 2 = Ret (b', r)).
Proof.
  assert (Hne : start split5 <> length split5) by (vm_compute; congruence).
  assert (H5 : 2 * length split5 <= INT_MAX) by (vm_compute; discriminate).
  split.
  - apply (pop_defined_iff split5 1 wf_split5 H5 Hne); [lia|].
    vm_compute. discriminate.
  - intros H.
    apply (pop_defined_iff split5 2 wf_split5 H5 Hne) in H; [|lia].
    vm_compute in H. apply H. reflexivity.
Defined.

(** ** Writes *)

Lemma blit_nothing (m : Mem.block) (off : Z) :
  0 <= off <= Mem.size m -> Mem.blit m off [] = Ret m.
Proof.
  intros H. rewrite MemFacts.blit_ok by (cbn; lia).
  cbn [app]. replace (off + Mem.size []) with off by (cbn; lia).
  rewrite firstn_skipn. reflexivity.
Qed.

(** X12.  A write of 0 bytes to a non-empty buffer whose capacity is at
    most [INT_MAX / 2] changes nothing. *)
Theorem write_zero_nonempty (b : RingBuffer) (data : Mem.block) :
  wf b -> 2 * length b <= INT_MAX -> start b <> length b ->
  RingBuffer_write b data 0 = Ret (b, 0).
Proof.
  intros Hwf Hsmall Hne. pose proof Hwf as (Hc & Hm & Hi).
  destruct Hi as [[? _]|[Hs He]]; [contradiction|].
  assert (Hd : 0 <= RingBuffer_dist_to_end b /\
               0 <= RingBuffer_available_space b).
  { destruct (nonempty_spaces b Hwf Hsmall Hne)
      as [(? & _ & -> & ->)|(? & _ & -> & ->)]; lia. }
  unfold RingBuffer_write.
  destruct (Z.ltb_spec (length b) 0); [lia|].
  destruct (Z.eqb_spec (start b) (length b)); [contradiction|].
  destruct (Z.ltb_spec (RingBuffer_dist_to_end b) 0); [lia|].
  unfold Mem.memcpy.
  rewrite MemFacts.sub_ok by (pose proof (MemFacts.size_nonneg data); lia).
  cbn [bind Z.to_nat firstn]. rewrite blit_nothing by lia. cbn [bind].
  rewrite Z.gtb_ltb.
  destruct (Z.ltb_spec (RingBuffer_available_space b) 0); [lia|].
  rewrite add_small by int_range.
  rewrite Z.add_0_r. destruct b. reflexivity.
Qed.

Lemma write_zero_nonempty_witness :
  RingBuffer_write wrapped5 [] 0 = Ret (wrapped5, 0).
Proof.
  apply (write_zero_nonempty wrapped5 []).
  - exact wf_wrapped5.
  - vm_compute. discriminate.
  - vm_compute. congruence.
Defined.

(** X13.  A write of 0 bytes to an empty buffer returns 0 and makes the
    buffer count as full: [start] is 0 and [end] is [-1], the used space
    is the capacity and the available space 0, so that a safe write of
    one byte or more to the state it leaves is refused. *)
Theorem write_zero_empty_reports_full (b : RingBuffer) (data : Mem.block) :
  wf b -> start b = length b ->
  exists b',
    RingBuffer_write b data 0 = Ret (b', 0) /\
    start b' = 0 /\ end_ b' = -1 /\ buffer b' = buffer b /\
    RingBuffer_used_space b' = length b /\
    RingBuffer_available_space b' = 0 /\
    (forall data' len, 1 <= len ->
       RingBuffer_safe_write b' data' len = Ret (b', -1)).
Proof.
  intros Hwf E. pose proof Hwf as (Hc & Hm & _).
  unfold RingBuffer_write.
  destruct (Z.ltb_spec (length b) 0); [lia|].
  destruct (Z.eqb_spec (start b) (length b)); [|contradiction].
  unfold Mem.memcpy.
  rewrite MemFacts.sub_ok by (pose proof (MemFacts.size_nonneg data); lia).
  cbn [bind Z.to_nat firstn]. rewrite blit_nothing by lia. cbn [bind].
  rewrite sub_small by int_range.
  eexists. split; [reflexivity|].
  assert (Hrem : Z.rem (Int.sub (Int.add (length b) (0 - 1)) 0) (length b)
                 = length b - 1).
  { rewrite add_small by int_range. rewrite sub_small by int_range.
    rewrite rem_below by lia. lia. }
  assert (Hu : RingBuffer_used_space
                 (set_indices (set_buffer b (buffer b)) 0 (0 - 1))
               = length b).
  { unfold RingBuffer_used_space.
    cbn [start length end_ set_indices set_buffer].
    destruct (Z.eqb_spec 0 (length b)); [lia|].
    rewrite Hrem. rewrite add_small by int_range. lia. }
  assert (Ha : RingBuffer_available_space
                 (set_indices (set_buffer b (buffer b)) 0 (0 - 1))
               = 0).
  { unfold RingBuffer_available_space.
    cbn [start length end_ set_indices set_buffer].
    destruct (Z.eqb_spec 0 (length b)); [lia|].
    rewrite Hrem. rewrite add_small by int_range.
    rewrite sub_small by int_range. lia. }
  repeat split; try assumption; try reflexivity.
  intros data' len Hlen. unfold RingBuffer_safe_write. rewrite Ha.
  destruct (Z.ltb_spec 0 len); [reflexivity|lia].
Qed.

Lemma write_zero_empty_reports_full_witness :
  exists b',
    RingBuffer_write empty3 [] 0 = Ret (b', 0) /\
    start b' = 0 /\ end_ b' = -1 /\ buffer b' = buffer empty3 /\
    RingBuffer_used_space b' = length empty3 /\
    RingBuffer_available_space b' = 0 /\
    (forall data' len, 1 <= len ->
       RingBuffer_safe_write b' data' len = Ret (b', -1)).
Proof.
  apply (write_zero_empty_reports_full empty3 []).
  - exact wf_empty3.
  - reflexivity.
Defined.

(** A write of [1 .. length] bytes to an empty buffer. *)
Lemma write_on_empty (b : RingBuffer) (data : Mem.block) (len : Z) :
  wf b -> 2 * length b <= INT_MAX -> start b = length b ->
  1 <= len <= length b -> len <= Mem.size data ->
  exists b',
    RingBuffer_write b data len = Ret (b', len) /\
    start b' = 0 /\ end_ b' = len - 1 /\
    unread b' = firstn (Z.to_nat len) data /\
    RingBuffer_used_space b' = len.
Proof.
  intros Hwf Hsmall E Hlen Hdata.
  destruct (write_defined b data len Hwf) as [b' Hw]; [lia|lia|].
  destruct (write_wf _ _ _ _ _ Hwf Hsmall Hw) as [Hwf' _].
  exists b'. split; [exact Hw|].
  pose proof (write_inv _ _ _ _ _ Hwf Hsmall Hw) as Hinv.
  destruct Hinv as [(? & _)|(_ & _ & _ & _ & _ & Hcase)]; [lia|].
  destruct Hcase as [(_ & Hs' & He')|(? & _)]; [|contradiction].
  split; [exact Hs'|]. split; [exact He'|].
  assert (Hun : unread b' = firstn (Z.to_nat len) data).
  { apply (write_empty_unread b data len b' len); (assumption || lia). }
  split; [exact Hun|].
  rewrite <- (unread_size b' Hwf'), Hun.
  - apply MemFacts.size_firstn. lia.
  - pose proof (write_wf _ _ _ _ _ Hwf Hsmall Hw) as [_ Hl'].
    rewrite Hl'. exact Hsmall.
Qed.

Lemma unread_empty (b : RingBuffer) :
  start b = length b -> unread b = [].
Proof.
  intros E. unfold unread. apply Z.eqb_eq in E. rewrite E. reflexivity.
Qed.

(** X14.  On a buffer whose capacity is at most [INT_MAX / 2], a write
    (plain or safe) of bytes that fit the available space is defined
    and appends them to the unread bytes, in order; the used space
    grows by their number.  The one exception is the write of 0 bytes
    to an empty buffer. *)
Theorem write_fitting_appends (b : RingBuffer) (data : Mem.block) (len : Z) :
  wf b -> 2 * length b <= INT_MAX -> 0 <= len <= Mem.size data ->
  len <= RingBuffer_available_space b ->
  start b <> length b \/ 1 <= len ->
  exists b',
    RingBuffer_write b data len = Ret (b', len) /\
    RingBuffer_safe_write b data len = Ret (b', len) /\
    unread b' = unread b ++ firstn (Z.to_nat len) data /\
    RingBuffer_used_space b' = RingBuffer_used_space b + len.
Proof.
  intros Hwf Hsmall Hlen Hfit Hor. pose proof Hwf as (Hc & Hm & Hi).
  assert (Hav : RingBuffer_available_space b <= length b).
  { pose proof (spaces_range b Hwf Hsmall). lia. }
  destruct (write_defined b data len Hwf) as [b' Hw]; [lia|lia|].
  exists b'. split; [exact Hw|]. split.
  { unfold RingBuffer_safe_write.
    destruct (Z.ltb_spec (RingBuffer_available_space b) len);
      [lia|exact Hw]. }
  destruct (write_wf _ _ _ _ _ Hwf Hsmall Hw) as [Hwf' _].
  destruct (Z.eq_dec (start b) (length b)) as [E|E].
  - destruct Hor as [?|Hpos]; [contradiction|].
    destruct (write_on_empty b data len Hwf Hsmall E)
      as (b'' & Hw'' & _ & _ & Hun & Hu'); [lia|lia|].
    rewrite Hw in Hw''. injection Hw'' as <-.
    destruct (empty_spaces b E) as (-> & _).
    rewrite (unread_empty b E). auto.
  - split.
    + apply (write_nonempty_appends b data len b' len); assumption.
    + apply (write_within_available b data len b' len); assumption.
Qed.

Lemma write_fitting_appends_witness :
  exists b',
    RingBuffer_write one_of5 wxyz 4 = Ret (b', 4) /\
    RingBuffer_safe_write one_of5 wxyz 4 = Ret (b', 4) /\
    unread b' = unread one_of5 ++ firstn (Z.to_nat 4) wxyz /\
    RingBuffer_used_space b' = RingBuffer_used_space one_of5 + 4.
Proof.
  apply (write_fitting_appends one_of5 wxyz 4).
  - exact wf_one_of5.
  - vm_compute. discriminate.
  - vm_compute. intuition congruence.
  - vm_compute. congruence.
  - left. vm_compute. congruence.
Defined.

(** X15.  On a buffer whose capacity is at most [INT_MAX / 2], a write of
    more than the available space (and at most the capacity) is defined
    and fills the buffer: afterwards the used space is the capacity, no
    space is available, [start] has advanced by [len - available] and
    is the cell after [end], modulo the capacity. *)
Theorem overwrite_fills_buffer (b : RingBuffer) (data : Mem.block) (len : Z) :
  wf b -> 2 * length b <= INT_MAX -> len <= Mem.size data ->
  RingBuffer_available_space b < len <= length b ->
  exists b',
    RingBuffer_write b data len = Ret (b', len) /\
    RingBuffer_used_space b' = length b /\
    RingBuffer_available_space b' = 0 /\
    start b' =
      (start b + (len - RingBuffer_available_space b)) mod length b /\
    start b' = (end_ b' + 1) mod length b.
Proof.
  intros Hwf Hsmall Hdata [Hover Hcap]. pose proof Hwf as (Hc & Hm & Hi).
  assert (Hne : start b <> length b).
  { intros E. destruct (empty_spaces b E) as (_ & Ha & _). lia. }
  destruct Hi as [[? _]|[Hs He]]; [contradiction|].
  destruct (write_overwrite_indices b data len Hwf Hsmall Hdata Hcap Hover)
    as (b' & Hw & Hs' & Hu').
  exists b'. split; [exact Hw|].
  destruct (write_wf _ _ _ _ _ Hwf Hsmall Hw) as [Hwf' Hl'].
  assert (Hsmall' : 2 * length b' <= INT_MAX) by (rewrite Hl'; exact Hsmall).
  assert (Hfull : RingBuffer_used_space b' = length b).
  { rewrite Hu'. pose proof (used_plus_available b Hwf Hsmall). lia. }
  split; [exact Hfull|]. split.
  { pose proof (used_plus_available b' Hwf' Hsmall'). lia. }
  split; [exact Hs'|].
  assert (Hne' : start b' <> length b').
  { rewrite Hs', Hl'.
    pose proof (Z.mod_pos_bound
                  (start b + (len - RingBuffer_available_space b))
                  (length b) (proj1 Hc)).
    lia. }
  pose proof Hwf' as (_ & _ & [[? _]|[Hs1 He1]]); [contradiction|].
  destruct (nonempty_spaces b' Hwf' Hsmall' Hne')
    as [(? & Hu1 & _)|(? & Hu1 & _)];
    rewrite Hu1 in Hfull; rewrite Hl' in *;
    mod_split (end_ b' + 1) (length b); lia.
Qed.

Lemma overwrite_fills_buffer_witness :
  exists b',
    RingBuffer_write wrapped5 ["x"; "y"]%byte 2 = Ret (b', 2) /\
    RingBuffer_used_space b' = length wrapped5 /\
    RingBuffer_available_space b' = 0 /\
    start b' =
      (start wrapped5 + (2 - RingBuffer_available_space wrapped5))
        mod length wrapped5 /\
    start b' = (end_ b' + 1) mod length wrapped5.
Proof.
  apply (overwrite_fills_buffer wrapped5 ["x"; "y"]%byte 2).
  - exact wf_wrapped5.
  - vm_compute. discriminate.
  - vm_compute. congruence.
  - vm_compute. intuition congruence.
Defined.

(** X19.  The bound on the capacity is needed.  On the full buffer of
    capacity 1073741825 the sum [length + end] wraps: the used space is
    [-1073741821] and the available space 2147483646, so a safe write
    of one byte is not refused.  It returns 1, stores its byte in cell
    0 over the oldest unread byte and sets [end = 0]; [start] stays 0
    and the used space is then 1. *)
Theorem safe_write_accepts_on_full :
  reachable 1073741825 (full_zeros 1073741825) /\
  unread_cell (full_zeros 1073741825) 0 /\
  RingBuffer_used_space (full_zeros 1073741825) = -1073741821 /\
  RingBuffer_available_space (full_zeros 1073741825) = 2147483646 /\
  exists b',
    RingBuffer_safe_write (full_zeros 1073741825) ["a"]%byte 1
    = Ret (b', 1) /\
    Mem.get (buffer b') 0 = "a"%byte /\
    start b' = 0 /\ end_ b' = 0 /\
    RingBuffer_used_space b' = 1.
Proof.
  assert (Hc : 0 < 1073741825 <= INT_MAX) by (unfold INT_MAX; lia).
  split; [apply reachable_full_zeros; exact Hc|].
  split; [unfold unread_cell, full_zeros; cbn [start length end_]; cbn; lia|].
  split; [reflexivity|]. split; [reflexivity|].
  pose proof (wf_full_zeros 1073741825 Hc) as Hwf.
  assert (Hd : RingBuffer_dist_to_end (full_zeros 1073741825) = 0)
    by reflexivity.
  assert (Ha : RingBuffer_available_space (full_zeros 1073741825)
               = 2147483646) by reflexivity.
  assert (Hs : start (full_zeros 1073741825) = 0) by reflexivity.
  assert (He : end_ (full_zeros 1073741825) = 1073741824) by reflexivity.
  assert (Hl : length (full_zeros 1073741825) = 1073741825) by reflexivity.
  revert Hwf Hd Ha Hs He Hl.
  generalize (full_zeros 1073741825). intros b Hwf Hd Ha Hs He Hl.
  assert (Hne : start b <> length b) by lia.
  destruct (write_defined b ["a"]%byte 1 Hwf) as [b' Hw];
    [lia|cbn; lia|].
  exists b'. split.
  { unfold RingBuffer_safe_write. rewrite Ha. exact Hw. }
  pose proof (write_get_data b ["a"]%byte 1 b' 1 0 Hwf Hw Hne) as Hcell.
  rewrite Hd in Hcell. cbn [Z.ltb Z.compare] in Hcell.
  destruct Hcell as [_ Hcell]; [lia|lia|].
  split; [apply Hcell; lia|].
  apply write_inv_int in Hw.
  destruct Hw as [(? & _)|(_ & _ & _ & Hl' & _ & Hcase)]; [lia|].
  destruct Hcase as [(? & _)|(_ & _ & He' & Hs')]; [contradiction|].
  rewrite Hd, He, Hl in He'. rewrite Ha, Hs in Hs'.
  change (end_ b' = 0) in He'. change (start b' = 0) in Hs'.
  split; [exact Hs'|]. split; [exact He'|].
  unfold RingBuffer_used_space. rewrite Hs', He', Hl', Hl. reflexivity.
Qed.

Lemma write_overwrite_unwrapped_unread_witness :
  unread {| buffer := ["x"; "y"; "c"]%byte; length := 3;
            start := 2; end_ := 1 |}
  = skipn (Z.to_nat (2 - RingBuffer_available_space full3)) (unread full3)
      ++ firstn (Z.to_nat 2) ["x"; "y"]%byte.
Proof.
  apply (write_overwrite_unwrapped_unread full3 ["x"; "y"]%byte 2 _ 2).
  - exact wf_full3.
  - vm_compute. discriminate.
  - vm_compute. intuition congruence.
  - vm_compute. reflexivity.
  - vm_compute. congruence.
  - vm_compute. reflexivity.
Defined.

Lemma pop_empty (b : RingBuffer) (len : Z) :
  start b = length b -> RingBuffer_pop b len = Ret (b, None).
Proof.
  intros E. unfold RingBuffer_pop.
  apply Z.eqb_eq in E. rewrite E. reflexivity.
Qed.

(** ** Operations in sequence *)

(** X17.  A new buffer is empty: no used space, the whole capacity available,
    a pop returns [NULL].  When twice the capacity is a value of [int],
    a first write of [1 .. capacity] bytes stores them from cell 0 on,
    and they are the unread bytes. *)
Theorem create_then_write (capacity : Z) (data : Mem.block) (len : Z) :
  2 * capacity <= INT_MAX ->
  1 <= len <= capacity -> len <= Mem.size data ->
  exists b b',
    RingBuffer_create capacity = Ret b /\
    RingBuffer_used_space b = 0 /\
    RingBuffer_available_space b = capacity /\
    (forall k, RingBuffer_pop b k = Ret (b, None)) /\
    RingBuffer_write b data len = Ret (b', len) /\
    start b' = 0 /\ end_ b' = len - 1 /\
    unread b' = firstn (Z.to_nat len) data /\
    RingBuffer_used_space b' = len /\
    RingBuffer_available_space b' = capacity - len.
Proof.
  intros Hcap Hlen Hdata.
  destruct (RingBuffer_create capacity) as [b|] eqn:Eb.
  2: { unfold RingBuffer_create, Mem.calloc in Eb.
       destruct (Z.ltb_spec capacity 0); [lia|discriminate]. }
  destruct (create_wf capacity b) as [Hwf Hl]; [lia|assumption|].
  assert (Hsmall : 2 * length b <= INT_MAX) by (rewrite Hl; exact Hcap).
  assert (E : start b = length b).
  { unfold RingBuffer_create in Eb.
    destruct (Mem.calloc capacity); [|discriminate].
    cbn [bind] in Eb. injection Eb as <-. reflexivity. }
  destruct (empty_spaces b E) as (Hu & Ha & _).
  destruct (write_on_empty b data len Hwf Hsmall E)
    as (b' & Hw & Hs' & He' & Hun & Hu'); [lia|lia|].
  exists b, b'. split; [reflexivity|]. split; [exact Hu|].
  split; [congruence|]. split.
  { intros k. apply pop_empty. exact E. }
  split; [exact Hw|].
  split; [exact Hs'|]. split; [exact He'|].
  split; [exact Hun|]. split; [exact Hu'|].
  destruct (write_wf _ _ _ _ _ Hwf Hsmall Hw) as [Hwf' Hl'].
  assert (Hsmall' : 2 * length b' <= INT_MAX) by (rewrite Hl'; exact Hsmall).
  pose proof (used_plus_available b' Hwf' Hsmall'). lia.
Qed.

Lemma create_then_write_witness :
  exists b b',
    RingBuffer_create 3 = Ret b /\
    RingBuffer_used_space b = 0 /\
    RingBuffer_available_space b = 3 /\
    (forall k, RingBuffer_pop b k = Ret (b, None)) /\
    RingBuffer_write b abc 2 = Ret (b', 2) /\
    start b' = 0 /\ end_ b' = 2 - 1 /\
    unread b' = firstn (Z.to_nat 2) abc /\
    RingBuffer_used_space b' = 2 /\
    RingBuffer_available_space b' = 3 - 2.
Proof.
  apply (create_then_write 3 abc 2).
  - vm_compute. discriminate.
  - lia.
  - vm_compute. congruence.
Defined.

(** X18.  [RingBuffer_clear] discards the unread bytes of any well-formed
    buffer whose capacity is at most [INT_MAX / 2]: a pop then returns
    [NULL], and a write of [1 .. length] bytes makes exactly those bytes
    the unread bytes. *)
Theorem clear_discards (b : RingBuffer) (data : Mem.block) (len : Z) :
  wf b -> 2 * length b <= INT_MAX ->
  1 <= len <= length b -> len <= Mem.size data ->
  unread (RingBuffer_clear b) = [] /\
  (forall k, RingBuffer_pop (RingBuffer_clear b) k
             = Ret (RingBuffer_clear b, None)) /\
  exists b',
    RingBuffer_write (RingBuffer_clear b) data len = Ret (b', len) /\
    unread b' = firstn (Z.to_nat len) data /\
    RingBuffer_used_space b' = len.
Proof.
  intros Hwf Hsmall Hlen Hdata.
  pose proof (clear_wf b Hwf) as Hwfc.
  assert (E : start (RingBuffer_clear b) = length (RingBuffer_clear b))
    by reflexivity.
  split; [exact (unread_empty _ E)|]. split.
  { intros k. apply pop_empty. exact E. }
  destruct (write_on_empty (RingBuffer_clear b) data len Hwfc Hsmall E)
    as (b' & Hw & _ & _ & Hun & Hu'); [exact Hlen|exact Hdata|].
  exists b'. auto.
Qed.

Lemma clear_discards_witness :
  unread (RingBuffer_clear wrapped5) = [] /\
  (forall k, RingBuffer_pop (RingBuffer_clear wrapped5) k
             = Ret (RingBuffer_clear wrapped5, None)) /\
  exists b',
    RingBuffer_write (RingBuffer_clear wrapped5) wxyz 4 = Ret (b', 4) /\
    unread b' = firstn (Z.to_nat 4) wxyz /\
    RingBuffer_used_space b' = 4.
Proof.
  apply (clear_discards wrapped5 wxyz 4).
  - exact wf_wrapped5.
  - vm_compute. discriminate.
  - vm_compute. intuition congruence.
  - vm_compute. congruence.
Defined.

Lemma pop_all_empties (b : RingBuffer) (len : Z) (b' : RingBuffer)
      (r : option Mem.block) :
  wf b -> 2 * length b <= INT_MAX ->
  start b <> length b -> RingBuffer_used_space b <= len ->
  RingBuffer_pop b len = Ret (b', r) ->
  end_ b <> length b - 1 ->
  start b' = length b /\ end_ b' = length b /\
  RingBuffer_used_space b' = 0.
Proof.
  intros Hwf Hsmall Hne Hlen H Hend.
  rewrite pop_clamp in H by assumption.
  rewrite <- (pop_clamp b (RingBuffer_used_space b + 1)) in H by lia.
  assert (Hlt : RingBuffer_used_space b < RingBuffer_used_space b + 1)
    by lia.
  destruct (pop_overlong _ _ _ _ Hwf Hsmall Hne Hlt H) as (_ & Hempty & _).
  destruct (Hempty Hend) as [Hs' He'].
  destruct (pop_wf _ _ _ _ Hwf Hsmall H) as [_ Hl'].
  split; [assumption|]. split; [assumption|].
  apply empty_spaces. congruence.
Qed.

(** X11.  Round trip on an empty buffer whose capacity is at most
    [INT_MAX / 2], for blocks of up to half the capacity (rounded up):
    writing [D] and popping as many bytes returns [D]; if [D] is shorter
    than the capacity the buffer is empty again afterwards. *)
Theorem write_pop_round_trip (b : RingBuffer) (D : Mem.block) :
  wf b -> 2 * length b <= INT_MAX -> start b = length b ->
  1 <= Mem.size D -> 2 * Mem.size D <= length b + 1 ->
  exists b1 b2,
    RingBuffer_write b D (Mem.size D) = Ret (b1, Mem.size D) /\
    RingBuffer_pop b1 (Mem.size D) = Ret (b2, Some D) /\
    (Mem.size D < length b ->
     start b2 = length b /\ end_ b2 = length b /\
     RingBuffer_used_space b2 = 0).
Proof.
  intros Hwf Hsmall E Hk Hhalf. pose proof Hwf as (Hc & _ & _).
  destruct (write_pop_small b D Hwf Hsmall E Hk Hhalf) as (b1 & b2 & Hw & Hp).
  exists b1, b2. split; [exact Hw|]. split; [exact Hp|].
  intros Hshort.
  destruct (write_on_empty b D (Mem.size D) Hwf Hsmall E)
    as (b1' & Hw' & Hs1 & He1 & _ & Hu1); [lia|lia|].
  rewrite Hw in Hw'. injection Hw' as <-.
  destruct (write_wf _ _ _ _ _ Hwf Hsmall Hw) as [Hwf1 Hl1].
  assert (Hsmall1 : 2 * length b1 <= INT_MAX) by (rewrite Hl1; exact Hsmall).
  assert (Hne1 : start b1 <> length b1) by lia.
  rewrite <- Hl1.
  apply (pop_all_empties b1 (Mem.size D) b2 (Some D)); try assumption; lia.
Qed.

Lemma write_pop_round_trip_witness :
  exists b1 b2,
    RingBuffer_write empty3 ["a"; "b"]%byte (Mem.size ["a"; "b"]%byte)
    = Ret (b1, Mem.size ["a"; "b"]%byte) /\
    RingBuffer_pop b1 (Mem.size ["a"; "b"]%byte)
    = Ret (b2, Some ["a"; "b"]%byte) /\
    (Mem.size ["a"; "b"]%byte < length empty3 ->
     start b2 = length empty3 /\ end_ b2 = length empty3 /\
     RingBuffer_used_space b2 = 0).
Proof.
  apply (write_pop_round_trip empty3 ["a"; "b"]%byte).
  - exact wf_empty3.
  - vm_compute. discriminate.
  - reflexivity.
  - vm_compute. congruence.
  - vm_compute. congruence.
Defined.

(** X2.  When twice the capacity is a value of [int], in every state
    reached by runs whose writes all have a length other than 0, the
    indices are both the capacity or both indices of the storage, and on
    a non-empty buffer the used space is the number of cells from
    [start] to [end] inclusive, going forward circularly. *)
Theorem index_invariant_without_zero_writes
        (capacity : Z) (b : RingBuffer) :
  2 * capacity <= INT_MAX ->
  reachable_nz capacity b ->
  index_invariant b /\
  (start b <> length b ->
   RingBuffer_used_space b = (end_ b - start b) mod length b + 1).
Proof.
  intros Hcap H.
  split; [exact (reachable_nz_index_invariant capacity b Hcap H)|].
  intros Hne.
  apply reachable_nz_reachable, reachable_wf in H; [|assumption].
  destruct H as [Hwf Hl].
  assert (Hsmall : 2 * length b <= INT_MAX) by (rewrite Hl; exact Hcap).
  pose proof Hwf as (Hc & _ & [[? _]|[Hs He]]); [contradiction|].
  destruct (nonempty_spaces b Hwf Hsmall Hne) as [(? & -> & _)|(? & -> & _)].
  - rewrite Z.mod_small by lia. reflexivity.
  - rewrite <- (Z.mod_add (end_ b - start b) 1 (length b)) by lia.
    rewrite Z.mod_small by lia. lia.
Qed.

Lemma index_invariant_without_zero_writes_witness :
  index_invariant full3 /\
  (start full3 <> length full3 ->
   RingBuffer_used_space full3
   = (end_ full3 - start full3) mod length full3 + 1).
Proof.
  apply (index_invariant_without_zero_writes 3 full3);
    [vm_compute; discriminate|].
  apply (nz_write 3 empty3 abc 3 full3 3).
  - apply nz_create; [lia | reflexivity].
  - discriminate.
  - vm_compute. reflexivity.
Defined.
